(** * The learning-journey timeline: tick positions, hover state, scrolling

    A shallow embedding of [src/components/ui/learning-journey.tsx].

    - JavaScript numbers are IEEE 754 binary64 values.  They are modelled by
      [spec_float] with the operations of [SpecFloat] at precision 53 and
      maximal exponent 1024 (round to nearest, ties to even).
    - [new Date(raw).getTime()] is a call into the runtime.  Its parser is a
      parameter of the development; the time value it yields is clipped as
      ECMAScript prescribes (an integral number of milliseconds of magnitude
      at most 8.64e15, or NaN).
    - React components are functions of their props and state; an event
      handler yields the next state and the callback invocations it made. *)

From Stdlib Require Import ZArith List Bool Ascii String Lia Reals Lra.
From Stdlib Require Import Floats.SpecFloat DecimalString DecimalZ.
From stdpp Require Import gmap strings list sorting.

Local Open Scope Z_scope.

(** ** JavaScript numbers *)

Abbreviation number := spec_float.

Definition prec : Z := 53.
Definition emax : Z := 1024.

Definition num_sub : number -> number -> number := SFsub prec emax.
Definition num_div : number -> number -> number := SFdiv prec emax.
Definition num_mul : number -> number -> number := SFmul prec emax.

(** [x === y] on numbers: false as soon as one side is NaN, and [+0 === -0]. *)
Definition num_eq : number -> number -> bool := SFeqb.
Definition num_le : number -> number -> bool := SFleb.

(** The number denoted by an integer literal or an integral time value. *)
Definition num_of_Z (z : Z) : number := binary_normalize prec emax z 0 false.

Definition num_zero : number := S754_zero false.
Definition num_one : number := Eval cbv in num_of_Z 1.
Definition num_hundred : number := Eval cbv in num_of_Z 100.

(** *** Real values of numbers, used to state what rounding does *)

Definition bpow (e : Z) : R := powerRZ 2 e.
Definition F2R (m e : Z) : R := (IZR m * bpow e)%R.

Definition SF2R (x : number) : R :=
  match x with
  | S754_finite s m e => F2R (cond_Zopp s (Zpos m)) e
  | _ => 0%R
  end.

(** [inbetween m e l x]: the location [l] tells where the real [x] lies in
    the interval from [m * 2^e] to [(m + 1) * 2^e]. *)
Definition inbetween (m e : Z) (l : location) (x : R) : Prop :=
  match l with
  | loc_Exact => x = F2R m e
  | loc_Inexact c =>
      (F2R m e < x < F2R (m + 1) e)%R /\
      match c with
      | Lt => (x < F2R (2 * m + 1) (e - 1))%R
      | Eq => x = F2R (2 * m + 1) (e - 1)
      | Gt => (F2R (2 * m + 1) (e - 1) < x)%R
      end
  end.

(** Mantissas of normal numbers have exactly 53 binary digits. *)
Definition normal_mantissa (m : Z) : Prop := 2 ^ 52 <= m < 2 ^ 53.

(** [is_round x m e]: the normal number [m * 2^e] is one of the two
    neighbours of [x] among the normal numbers (no normal number lies
    strictly between them). *)
Definition is_round (x : R) (m : positive) (e : Z) : Prop :=
  normal_mantissa (Zpos m) /\
  forall mf ef, normal_mantissa mf ->
    ((x <= F2R mf ef)%R -> (F2R (Zpos m) e <= F2R mf ef)%R) /\
    ((F2R mf ef <= x)%R -> (F2R mf ef <= F2R (Zpos m) e)%R).

(** [approx_tenths x t]: [x] is [t / 10] to one decimal place, that is
    [|x - t / 10| <= 1 / 20], decided on the exact value of [x]. *)
Definition approx_tenths (x : number) (t : Z) : bool :=
  match x with
  | S754_zero _ => Z.abs (2 * t) <=? 1
  | S754_finite s m e =>
      let sm := cond_Zopp s (Zpos m) in
      if 0 <=? e then Z.abs (20 * sm * 2 ^ e - 2 * t) <=? 1
      else Z.abs (20 * sm - 2 * t * 2 ^ (- e)) <=? 2 ^ (- e)
  | _ => false
  end.

(** ** Data model *)

Module VideoBlock.
Record t := mk {
  title : string;
  url : string;
  caption : option string;
}.
End VideoBlock.

Inductive EntryKind := KindText | KindVideo.

Module BlockEntry.
Record t := mk {
  id : string;
  date : string;
  rawDate : string;
  title : string;
  kind : EntryKind;
  content : string;
  video : option VideoBlock.t;
}.
End BlockEntry.

(** ** The runtime's dates *)

Definition max_time : Z := 8640000000000000.
Definition ms_per_day : Z := 86400000.

(** [Date.parse] on the two ISO forms [YYYY-MM-DD] and
    [YYYY-MM-DDTHH:mm:ss.sssZ], both read as UTC, after the date-time string
    format of ECMAScript; the worked examples run on this instance of the
    runtime's parser. *)
Module IsoDate.

Definition is_leap (y : Z) : bool :=
  ((y mod 4 =? 0) && negb (y mod 100 =? 0)) || (y mod 400 =? 0).

Definition day_from_year (y : Z) : Z :=
  365 * (y - 1970) + (y - 1969) / 4 - (y - 1901) / 100 + (y - 1601) / 400.

Definition days_in_month (y m : Z) : Z :=
  match m with
  | 1 | 3 | 5 | 7 | 8 | 10 | 12 => 31
  | 4 | 6 | 9 | 11 => 30
  | 2 => if is_leap y then 29 else 28
  | _ => 0
  end.

Definition days_before_month (y m : Z) : Z :=
  fold_right Z.add 0
    (map (fun k => days_in_month y (Z.of_nat k)) (seq 1 (Z.to_nat (m - 1)))).

Definition make_day (y m d : Z) : Z :=
  day_from_year y + days_before_month y m + (d - 1).

Definition digit (c : ascii) : option Z :=
  let n := Z.of_N (N_of_ascii c) in
  if (48 <=? n) && (n <=? 57) then Some (n - 48) else None.

Fixpoint read_digits (n : nat) (acc : Z) (cs : list ascii)
  : option (Z * list ascii) :=
  match n with
  | O => Some (acc, cs)
  | S n' =>
      match cs with
      | [] => None
      | c :: cs' =>
          match digit c with
          | Some d => read_digits n' (10 * acc + d) cs'
          | None => None
          end
      end
  end.

Definition expect (c : ascii) (cs : list ascii) : option (list ascii) :=
  match cs with
  | c' :: cs' => if Ascii.eqb c c' then Some cs' else None
  | [] => None
  end.

Definition read_time (cs : list ascii) : option Z :=
  '(h, cs) ← read_digits 2 0 cs;
  cs ← expect ":" cs;
  '(mi, cs) ← read_digits 2 0 cs;
  cs ← expect ":" cs;
  '(s, cs) ← read_digits 2 0 cs;
  cs ← expect "." cs;
  '(ms, cs) ← read_digits 3 0 cs;
  cs ← expect "Z" cs;
  match cs with
  | [] =>
      if (h <? 24) && (mi <? 60) && (s <? 60)
      then Some (((h * 60 + mi) * 60 + s) * 1000 + ms)
      else None
  | _ => None
  end.

Definition parse (s : string) : option Z :=
  '(y, cs) ← read_digits 4 0 (list_ascii_of_string s);
  cs ← expect "-" cs;
  '(m, cs) ← read_digits 2 0 cs;
  cs ← expect "-" cs;
  '(d, cs) ← read_digits 2 0 cs;
  if (1 <=? m) && (m <=? 12) && (1 <=? d) && (d <=? days_in_month y m)
  then
    match cs with
    | [] => Some (make_day y m d * ms_per_day)
    | c :: cs' =>
        if Ascii.eqb c "T"
        then t ← read_time cs'; Some (make_day y m d * ms_per_day + t)
        else None
    end
  else None.

End IsoDate.

(** ** [Timeline] *)

(** A rendered tick: its React key, the percentage in its [top] style (the
    read [positions[index]], which is [undefined] out of range), whether
    its tooltip carries the visible classes, its texts, and what its three
    handlers do: the hover state they set and the [onScrollTo] calls they
    make. *)
Record TickView := {
  tick_key : string;
  tick_top : option number;
  tooltip_visible : bool;
  tooltip_text : string;
  aria_label : string;
  onMouseEnter : option nat;
  onMouseLeave : option nat;
  onClick : list string;
}.

Inductive TickEvent :=
  | PointerEnter (index : nat)
  | PointerLeave (index : nat)
  | Activate (index : nat).

Section Timeline.

(** The runtime's [Date.parse]: the milliseconds since the epoch denoted by
    a string, [None] when the string is not a date. *)
Variable date_parse : string -> option Z.

(** The time value of [new Date(raw)]: the parsed value after [TimeClip]. *)
Definition time_value (raw : string) : option Z :=
  match date_parse raw with
  | Some t => if Z.abs t <=? max_time then Some t else None
  | None => None
  end.

(** [new Date(raw).getTime()]. *)
Definition getTime (raw : string) : number :=
  match time_value raw with
  | Some t => num_of_Z t
  | None => S754_nan
  end.

(** The callback of [entries.filter] in [uniqueDates], with the set [seen]
    it mutates threaded through the traversal. *)
Fixpoint filter_unseen (seen : gset string) (entries : list BlockEntry.t)
  : list BlockEntry.t :=
  match entries with
  | [] => []
  | entry :: rest =>
      if decide (BlockEntry.date entry ∈ seen) then filter_unseen seen rest
      else entry :: filter_unseen ({[BlockEntry.date entry]} ∪ seen) rest
  end.

Definition uniqueDates (entries : list BlockEntry.t) : list BlockEntry.t :=
  filter_unseen ∅ entries.

(** The body of the [map] callback in [positions]. *)
Definition position_of (start range : number) (entry : BlockEntry.t) : number :=
  if num_eq range num_zero then num_zero
  else num_mul
         (num_div (num_sub (getTime (BlockEntry.rawDate entry)) start) range)
         num_hundred.

(** [positions], as a function of the memoised [uniqueDates].  The two
    indexed reads are in range once the array is known to be non-empty;
    the last branch stands for reads that would yield [undefined]. *)
Definition positions_of (uniq : list BlockEntry.t) : list number :=
  if (length uniq =? 0)%nat then []
  else
    match uniq !! 0%nat, uniq !! (length uniq - 1)%nat with
    | Some first, Some last =>
        let start := getTime (BlockEntry.rawDate first) in
        let end_ := getTime (BlockEntry.rawDate last) in
        let range := num_sub end_ start in
        map (position_of start range) uniq
    | _, _ => []
    end.

Definition positions (entries : list BlockEntry.t) : list number :=
  positions_of (uniqueDates entries).

(** The ticks [Timeline] returns for its props and its state. *)
Definition render_ticks (entries : list BlockEntry.t)
    (hoveredIndex : option nat) : list TickView :=
  imap (fun index entry =>
          {| tick_key := BlockEntry.id entry;
             tick_top := positions entries !! index;
             tooltip_visible := bool_decide (hoveredIndex = Some index);
             tooltip_text := BlockEntry.date entry;
             aria_label := "Go to " +:+ BlockEntry.date entry;
             onMouseEnter := Some index;
             onMouseLeave := None;
             onClick := [BlockEntry.id entry] |})
       (uniqueDates entries).

(** One event on the rendered navigator: the next [hoveredIndex] and the
    [onScrollTo] calls made, in order.  An index without a tick has no
    handler. *)
Definition dispatch (entries : list BlockEntry.t) (hoveredIndex : option nat)
    (ev : TickEvent) : option nat * list string :=
  let ticks := render_ticks entries hoveredIndex in
  match ev with
  | PointerEnter index =>
      match ticks !! index with
      | Some tick => (onMouseEnter tick, [])
      | None => (hoveredIndex, [])
      end
  | PointerLeave index =>
      match ticks !! index with
      | Some tick => (onMouseLeave tick, [])
      | None => (hoveredIndex, [])
      end
  | Activate index =>
      match ticks !! index with
      | Some tick => (hoveredIndex, onClick tick)
      | None => (hoveredIndex, [])
      end
  end.

End Timeline.

(** [useState<number | null>(null)]. *)
Definition initial_hoveredIndex : option nat := None.

(** ** [LearningJourney] *)

(** The part of an [<article>] that depends on its entry. *)
Record Article := {
  anchor : string;
  article_key : string;
  article_date : string;
  article_title : string;
  inner_html : string;
  video_card : option VideoBlock.t;
}.

Definition render_article (entry : BlockEntry.t) : Article :=
  {| anchor := BlockEntry.id entry;
     article_key := BlockEntry.id entry;
     article_date := BlockEntry.date entry;
     article_title := BlockEntry.title entry;
     inner_html := BlockEntry.content entry;
     video_card := BlockEntry.video entry |}.

(** [entries.map((entry) => <article .../>)]. *)
Definition render_articles (entries : list BlockEntry.t) : list Article :=
  map render_article entries.

(** The document, as far as [getElementById] sees it: its elements in tree
    order, each with its [id] attribute. *)
Record Element := { element_id : string }.

Definition getElementById (document : list Element) (i : string)
  : option Element :=
  List.find (fun el => String.eqb (element_id el) i) document.

Inductive ScrollBehavior := Smooth.
Inductive ScrollBlock := BlockStart.

Record ScrollCall := {
  scroll_target : Element;
  scroll_behavior : ScrollBehavior;
  scroll_block : ScrollBlock;
}.

(** What running a handler does: it returns after some scroll commands, or
    it throws. *)
Inductive Outcome :=
  | Returned (scrolls : list ScrollCall)
  | Threw.

(** A method call [receiver.scrollIntoView(...)]: a [TypeError] on [null]. *)
Definition scrollIntoView (receiver : option Element) : Outcome :=
  match receiver with
  | Some el =>
      Returned [{| scroll_target := el; scroll_behavior := Smooth;
                   scroll_block := BlockStart |}]
  | None => Threw
  end.

(** A nullable object reference in a condition: [null] is falsy. *)
Definition truthy {A : Type} (o : option A) : bool :=
  match o with
  | Some _ => true
  | None => false
  end.

Definition handleScrollTo (document : list Element)
    (scrollRef_current : option Element) (i : string) : Outcome :=
  let element := getElementById document i in
  if truthy element && truthy scrollRef_current
  then scrollIntoView element
  else Returned [].

(** ** Words of the specification, stated on their own *)

(** The entries at which a display date occurs for the first time, in input
    order. *)
Definition is_first_occurrence (entries : list BlockEntry.t) (i : nat)
    (entry : BlockEntry.t) : Prop :=
  BlockEntry.date entry ∉ (BlockEntry.date <$> take i entries).

Definition first_occurrences (entries : list BlockEntry.t) : list BlockEntry.t :=
  snd <$> filter (fun ie => is_first_occurrence entries ie.1 ie.2)
                 (imap pair entries).

Section Chronology.

Variable date_parse : string -> option Z.

(** Both entries have a valid time value, and the first is not after the
    second. *)
Definition time_leb (e1 e2 : BlockEntry.t) : bool :=
  match time_value date_parse (BlockEntry.rawDate e1),
        time_value date_parse (BlockEntry.rawDate e2) with
  | Some t1, Some t2 => t1 <=? t2
  | _, _ => false
  end.

(** Chronological order: every entry has a valid time value, and the time
    values do not decrease along the list. *)
Fixpoint chronological (entries : list BlockEntry.t) : bool :=
  match entries with
  | [] => true
  | e1 :: rest =>
      time_leb e1 e1 &&
      match rest with
      | [] => true
      | e2 :: _ => time_leb e1 e2
      end && chronological rest
  end.

Definition time_le (e1 e2 : BlockEntry.t) : Prop := time_leb e1 e2 = true.

End Chronology.

(** A percentage: a number from [0] to [100]. *)
Definition in_percent_range (p : number) : Prop :=
  num_le num_zero p = true /\ num_le p num_hundred = true.

(** ** Worked examples *)

Definition example_entry (i d raw : string) : BlockEntry.t :=
  BlockEntry.mk i d raw "Notes" KindText "<p>Notes</p>" None.

(** The example of the specification: two entries on the first day. *)
Definition journey_2024 : list BlockEntry.t :=
  [ example_entry "e1" "2024.01.01" "2024-01-01";
    example_entry "e2" "2024.01.01" "2024-01-01";
    example_entry "e3" "2024.07.01" "2024-07-01";
    example_entry "e4" "2025.01.01" "2025-01-01" ].

(** Two display dates for one instant. *)
Definition same_instant : list BlockEntry.t :=
  [ example_entry "a" "2024.01.01" "2024-01-01T00:00:00.000Z";
    example_entry "b" "2024.01.02" "2024-01-01T00:00:00.000Z" ].

Definition dates_abac : list BlockEntry.t :=
  [ example_entry "1" "A" "2024-01-01";
    example_entry "2" "B" "2024-01-02";
    example_entry "3" "A" "2024-01-03";
    example_entry "4" "C" "2024-01-04" ].

Definition host_document : list Element :=
  [ {| element_id := "root" |}; {| element_id := "e1" |};
    {| element_id := "e2" |} ].

(** ** [pad] and [formatDate] *)

(** The numbers these two functions handle come from the getters of a
    [Date]: they are integral, or NaN ([None]) for an invalid date. *)

(** [String(value)]. *)
Definition js_String (value : option Z) : string :=
  match value with
  | Some z => NilZero.string_of_int (Z.to_int z)
  | None => "NaN"
  end.

(** [s.padStart(targetLength, padString)]: the filler is [padString]
    repeated and cut to the missing length; nothing is added when [s] is
    long enough or [padString] is empty. *)
Definition padStart (targetLength : nat) (padString s : string) : string :=
  let len := String.length s in
  if (targetLength <=? len)%nat then s
  else if (String.length padString =? 0)%nat then s
  else
    let fillLen := (targetLength - len)%nat in
    string_of_list_ascii
      (take fillLen (mjoin (replicate fillLen (list_ascii_of_string padString))))
    +:+ s.

Definition pad (value : option Z) : string := padStart 2 "0" (js_String value).

(** A [Date] as its local-time getters show it. *)
Inductive JsDate :=
  | InvalidDate
  | LocalDate (fullYear month day : Z).

Definition getFullYear (d : JsDate) : option Z :=
  match d with LocalDate y _ _ => Some y | InvalidDate => None end.

(** Months count from [0]. *)
Definition getMonth (d : JsDate) : option Z :=
  match d with LocalDate _ m _ => Some m | InvalidDate => None end.

Definition getDate (d : JsDate) : option Z :=
  match d with LocalDate _ _ day => Some day | InvalidDate => None end.

(** [value + 1]: NaN stays NaN. *)
Definition plus_one (value : option Z) : option Z := (fun z => z + 1) <$> value.

Definition formatDate (d : JsDate) : string :=
  js_String (getFullYear d) +:+ "." +:+ pad (plus_one (getMonth d))
    +:+ "." +:+ pad (getDate d).

(** The dates a calendar has: months [0..11], days [1..31]. *)
Definition calendar_date (d : JsDate) : Prop :=
  match d with
  | LocalDate _ m day => 0 <= m <= 11 /\ 1 <= day <= 31
  | InvalidDate => False
  end.

(** Reading a decimal numeral back. *)
Definition read_decimal (s : string) : option Z :=
  Z.of_int <$> NilZero.int_of_string s.

(** ** Runs of the navigator, and the navigator inside [LearningJourney] *)

Section Runs.

Variable date_parse : string -> option Z.

(** A sequence of events, handled one after the other: the last hover
    state and all the [onScrollTo] calls, in order. *)
Fixpoint run (entries : list BlockEntry.t) (hoveredIndex : option nat)
    (events : list TickEvent) : option nat * list string :=
  match events with
  | [] => (hoveredIndex, [])
  | ev :: rest =>
      let '(h1, calls1) := dispatch date_parse entries hoveredIndex ev in
      let '(h2, calls2) := run entries h1 rest in
      (h2, calls1 ++ calls2)
  end.


End Runs.


(** The call a tick makes when it is activated, if the tick exists. *)
Definition activation_call (entries : list BlockEntry.t) (ev : TickEvent)
  : option string :=
  match ev with
  | Activate index => BlockEntry.id <$> uniqueDates entries !! index
  | _ => None
  end.

(** The hovered index is none or the index of a rendered tick. *)
Definition hover_in_range (entries : list BlockEntry.t) (h : option nat) : Prop :=
  match h with
  | Some i => (i < length (uniqueDates entries))%nat
  | None => True
  end.

(** [p <= q] on numbers. *)
Definition num_leb_rel (p q : number) : Prop := num_le p q = true.

(** [is_nearest x m e]: no normal number is nearer to [x] than [m * 2^e]. *)
Definition is_nearest (x : R) (m : positive) (e : Z) : Prop :=
  normal_mantissa (Zpos m) /\
  forall mf ef, normal_mantissa mf ->
    (Rabs (F2R (Zpos m) e - x) <= Rabs (F2R mf ef - x))%R.

(** More examples: a first entry whose time does not parse, entries out of
    order, and a document holding the rendered articles. *)
Definition broken_journey : list BlockEntry.t :=
  [ example_entry "x1" "2024.01.01" "soon";
    example_entry "x2" "2024.07.01" "2024-07-01" ].

Definition unsorted_journey : list BlockEntry.t :=
  [ example_entry "u1" "2024.01.01" "2024-01-01";
    example_entry "u2" "2025.06.01" "2025-06-01";
    example_entry "u3" "2025.01.01" "2025-01-01" ].


(** * Rounding to nearest in binary64 *)

(** ** Powers of two and scaled integers *)

Lemma bpow_gt_0 e : (0 < bpow e)%R.
Proof. apply powerRZ_lt; lra. Qed.

Lemma bpow_add a b : bpow (a + b) = (bpow a * bpow b)%R.
Proof. apply powerRZ_add; lra. Qed.

Lemma bpow_succ e : bpow (e + 1) = (2 * bpow e)%R.
Proof. rewrite bpow_add. unfold bpow at 2. simpl. lra. Qed.

Lemma bpow_pred e : bpow (e - 1) = (bpow e / 2)%R.
Proof. replace e with ((e - 1) + 1) at 2 by lia. rewrite bpow_succ. lra. Qed.

Lemma bpow_nonneg_IZR k : 0 <= k -> bpow k = IZR (2 ^ k).
Proof.
  intros Hk. pattern k. apply natlike_ind; [reflexivity | | exact Hk].
  intros x Hx IH. unfold Z.succ. rewrite bpow_succ, IH, Z.pow_add_r by lia.
  rewrite mult_IZR. simpl. lra.
Qed.

Lemma bpow_le a b : a <= b -> (bpow a <= bpow b)%R.
Proof.
  intros H. replace b with (a + (b - a)) by lia.
  rewrite bpow_add, (bpow_nonneg_IZR (b - a)) by lia.
  assert (1 <= 2 ^ (b - a)) by (apply Z.lt_succ_r; change (Z.succ 0) with 1; pose proof (Z.pow_pos_nonneg 2 (b - a)); lia).
  apply IZR_le in H0. pose proof (bpow_gt_0 a). nra.
Qed.

Lemma bpow_lt a b : a < b -> (bpow a < bpow b)%R.
Proof.
  intros H. assert (a + 1 <= b) by lia. apply bpow_le in H0.
  rewrite bpow_succ in H0. pose proof (bpow_gt_0 a). lra.
Qed.

Lemma F2R_shift m e k : 0 <= k -> F2R (m * 2 ^ k) (e - k) = F2R m e.
Proof.
  intros Hk. unfold F2R. rewrite mult_IZR, <- bpow_nonneg_IZR by lia.
  rewrite Rmult_assoc, <- bpow_add. f_equal. f_equal. lia.
Qed.

Lemma F2R_le m1 m2 e : m1 <= m2 -> (F2R m1 e <= F2R m2 e)%R.
Proof. intros H. unfold F2R. apply IZR_le in H. pose proof (bpow_gt_0 e). nra. Qed.

Lemma F2R_lt m1 m2 e : m1 < m2 -> (F2R m1 e < F2R m2 e)%R.
Proof. intros H. unfold F2R. apply IZR_lt in H. pose proof (bpow_gt_0 e). nra. Qed.

Lemma F2R_lt_inv m1 m2 e : (F2R m1 e < F2R m2 e)%R -> m1 < m2.
Proof.
  intros H. destruct (Z.lt_ge_cases m1 m2) as [|Hge]; [assumption|].
  apply (F2R_le _ _ e) in Hge. lra.
Qed.

Lemma F2R_le_inv m1 m2 e : (F2R m1 e <= F2R m2 e)%R -> m1 <= m2.
Proof.
  intros H. destruct (Z.le_gt_cases m1 m2) as [|Hgt]; [assumption|].
  apply (F2R_lt _ _ e) in Hgt. lra.
Qed.

Lemma digits2_pos_size p : digits2_pos p = Pos.size p.
Proof. induction p; simpl; congruence. Qed.

(** [digits2_pos p] is the number of binary digits of [p]. *)
Lemma digits2_bounds p :
  2 ^ (Zpos (digits2_pos p) - 1) <= Zpos p < 2 ^ Zpos (digits2_pos p).
Proof.
  rewrite digits2_pos_size. split.
  - pose proof (Pos.size_le p) as H.
    assert (Zpos (2 ^ Pos.size p) <= Zpos p~0) by exact H.
    rewrite Pos2Z.inj_pow in H0.
    replace (Zpos (Pos.size p)) with ((Zpos (Pos.size p) - 1) + 1) in H0 by lia.
    rewrite Z.pow_add_r in H0 by lia. lia.
  - pose proof (Pos.size_gt p) as H.
    assert (Zpos p < Zpos (2 ^ Pos.size p)) by exact H.
    now rewrite Pos2Z.inj_pow in H0.
Qed.

Lemma digits2_unique p d :
  2 ^ (d - 1) <= Zpos p < 2 ^ d -> Zpos (digits2_pos p) = d.
Proof.
  intros [H1 H2]. pose proof (digits2_bounds p) as [H3 H4].
  assert (0 < d).
  { destruct (Z.lt_ge_cases 0 d); [assumption|].
    destruct (Z.eq_dec d 0) as [->|]; [simpl in H2; lia|].
    rewrite Z.pow_neg_r in H2 by lia. lia. }
  destruct (Z.lt_trichotomy (Zpos (digits2_pos p)) d) as [Hl|[He|Hg]]; [|assumption|].
  - assert (2 ^ Zpos (digits2_pos p) <= 2 ^ (d - 1)) by (apply Z.pow_le_mono_r; lia). lia.
  - assert (2 ^ d <= 2 ^ (Zpos (digits2_pos p) - 1)) by (apply Z.pow_le_mono_r; lia). lia.
Qed.

(** ** Shifting a mantissa to the right keeps track of the location *)

Lemma loc_of_shr_record_of_loc m l :
  loc_of_shr_record (shr_record_of_loc m l) = l /\ shr_m (shr_record_of_loc m l) = m.
Proof. destruct l as [|[]]; simpl; auto. Qed.

Lemma shr_1_fields mrs :
  0 <= shr_m mrs ->
  shr_1 mrs = Build_shr_record (Z.div2 (shr_m mrs)) (Z.odd (shr_m mrs))
                               (shr_r mrs || shr_s mrs).
Proof. destruct mrs as [[|[p|p|]|p] r s]; simpl; intros H; try reflexivity; lia. Qed.

(** One shift halves the mantissa; the round and sticky bits still locate
    the same real. *)
Lemma inbetween_shr_1 mrs e x :
  0 <= shr_m mrs ->
  inbetween (shr_m mrs) e (loc_of_shr_record mrs) x ->
  inbetween (shr_m (shr_1 mrs)) (e + 1) (loc_of_shr_record (shr_1 mrs)) x.
Proof.
  intros Hm. rewrite (shr_1_fields mrs Hm). destruct mrs as [m r s]. simpl in *.
  pose proof (Z.div2_odd m) as Hdiv. set (q := Z.div2 m) in *.
  pose proof (bpow_gt_0 e) as Hu.
  assert (Hq : forall k, F2R k (e + 1) = (2 * IZR k * bpow e)%R).
  { intros k. unfold F2R. rewrite bpow_succ. lra. }
  assert (Hmid : F2R (2 * q + 1) (e + 1 - 1) = ((2 * IZR q + 1) * bpow e)%R).
  { unfold F2R. replace (e + 1 - 1) with e by lia.
    rewrite plus_IZR, mult_IZR. reflexivity. }
  assert (Hm0 : forall k, F2R (m + k) e = ((2 * IZR q + IZR (Z.b2z (Z.odd m)) + IZR k) * bpow e)%R).
  { intros k. unfold F2R. rewrite Hdiv at 1. rewrite !plus_IZR, mult_IZR. reflexivity. }
  pose proof (Hm0 0) as Hm00. rewrite Z.add_0_r in Hm00. 
  pose proof (Hm0 1) as Hm01. clear Hm0.
  intros Hx. destruct (Z.odd m), r, s; simpl in *; rewrite ?Hq, ?Hmid, ?plus_IZR in *;
    rewrite ?Hm00, ?Hm01 in Hx; simpl in *; repeat split; try lra.
Qed.

Lemma inbetween_iter_shr_1 n : forall mrs e x,
  0 <= shr_m mrs ->
  inbetween (shr_m mrs) e (loc_of_shr_record mrs) x ->
  let mrs' := SpecFloat.iter_pos shr_1 n mrs in
  shr_m mrs' = shr_m mrs / 2 ^ Zpos n /\
  inbetween (shr_m mrs') (e + Zpos n) (loc_of_shr_record mrs') x.
Proof.
  assert (Hstep : forall mrs e x, 0 <= shr_m mrs ->
    inbetween (shr_m mrs) e (loc_of_shr_record mrs) x ->
    shr_m (shr_1 mrs) = shr_m mrs / 2 ^ 1 /\
    inbetween (shr_m (shr_1 mrs)) (e + 1) (loc_of_shr_record (shr_1 mrs)) x).
  { intros mrs e x Hm Hx. split; [|now apply inbetween_shr_1].
    rewrite (shr_1_fields mrs Hm). simpl shr_m. now rewrite Z.div2_div. }
  assert (Hdd : forall m a b, 0 < a -> 0 < b -> m / 2 ^ a / 2 ^ b = m / 2 ^ (a + b)).
  { intros m a b Ha Hb. rewrite Z.pow_add_r by lia.
    pose proof (Z.pow_pos_nonneg 2 a). pose proof (Z.pow_pos_nonneg 2 b).
    rewrite Z.div_div; lia. }
  assert (Hnn : forall m a, 0 < a -> 0 <= m -> 0 <= m / 2 ^ a).
  { intros m a Ha Hm. apply Z.div_pos; [lia|]. apply Z.pow_pos_nonneg; lia. }
  induction n as [n IH|n IH|]; intros mrs e x Hm Hx; simpl.
  - destruct (Hstep mrs e x Hm Hx) as [E1 I1].
    assert (P1 : 0 <= shr_m (shr_1 mrs)) by (rewrite E1; apply Hnn; lia).
    destruct (IH _ _ _ P1 I1) as [E2 I2].
    assert (P2 : 0 <= shr_m (SpecFloat.iter_pos shr_1 n (shr_1 mrs)))
      by (rewrite E2; apply Hnn; lia).
    destruct (IH _ _ _ P2 I2) as [E3 I3].
    split.
    + rewrite E3, E2, E1, !Hdd by lia. f_equal. f_equal. lia.
    + replace (e + Zpos n~1) with (e + 1 + Zpos n + Zpos n) by lia. exact I3.
  - destruct (IH _ _ _ Hm Hx) as [E2 I2].
    assert (P2 : 0 <= shr_m (SpecFloat.iter_pos shr_1 n mrs))
      by (rewrite E2; apply Hnn; lia).
    destruct (IH _ _ _ P2 I2) as [E3 I3].
    split.
    + rewrite E3, E2, !Hdd by lia. f_equal. f_equal. lia.
    + replace (e + Zpos n~0) with (e + Zpos n + Zpos n) by lia. exact I3.
  - apply Hstep; assumption.
Qed.

(** Two mantissas of full precision: no such number lies strictly between
    two consecutive ones. *)
Lemma normal_gap m e mf ef :
  2 ^ 52 <= m < 2 ^ 53 -> 2 ^ 52 <= mf < 2 ^ 53 ->
  ((F2R m e < F2R mf ef)%R -> (F2R (m + 1) e <= F2R mf ef)%R) /\
  ((F2R mf ef < F2R (m + 1) e)%R -> (F2R mf ef <= F2R m e)%R).
Proof.
  intros Hm Hf. destruct (Z.le_gt_cases e ef) as [Hle|Hgt].
  - rewrite <- (F2R_shift mf ef (ef - e)) by lia.
    replace (ef - (ef - e)) with e by lia. split; intros H.
    + apply F2R_lt_inv in H. apply F2R_le. lia.
    + apply F2R_lt_inv in H. apply F2R_le. lia.
  - assert (Hlt : (F2R mf ef < F2R m e)%R).
    { apply Rlt_le_trans with (F2R (2 ^ 53) ef); [apply F2R_lt; lia|].
      apply Rle_trans with (F2R (2 ^ 52) e); [|apply F2R_le; lia].
      unfold F2R. rewrite <- !bpow_nonneg_IZR, <- !bpow_add by lia.
      apply bpow_le. lia. }
    split; intros H; lra.
Qed.

(** ** Rounding a located value with at least 53 digits *)

Lemma normal_mantissa_digits p :
  normal_mantissa (Zpos p) <-> Zpos (digits2_pos p) = 53.
Proof.
  unfold normal_mantissa. split; intros H.
  - apply digits2_unique. exact H.
  - pose proof (digits2_bounds p) as Hb. rewrite H in Hb. exact Hb.
Qed.

Lemma fexp_normal k : -1074 <= k - 53 -> fexp prec emax k = k - 53.
Proof. intros H. unfold fexp, emin, prec, emax. lia. Qed.

(** In the normal range, [shr_fexp] leaves a mantissa of exactly 53 digits. *)
Lemma shr_fexp_normal p e l x :
  let d := Zpos (digits2_pos p) in
  53 <= d -> -1074 <= d + e - 53 ->
  inbetween (Zpos p) e l x ->
  exists mrs, shr_fexp prec emax (Zpos p) e l = (mrs, e + d - 53) /\
    normal_mantissa (shr_m mrs) /\
    inbetween (shr_m mrs) (e + d - 53) (loc_of_shr_record mrs) x.
Proof.
  intros d Hd He Hx. unfold shr_fexp. simpl Zdigits2. fold d.
  rewrite fexp_normal by lia.
  destruct (loc_of_shr_record_of_loc (Zpos p) l) as [El Em].
  pose proof (digits2_bounds p) as Hb. fold d in Hb.
  replace (d + e - 53 - e) with (d - 53) by lia.
  destruct (d - 53) as [|n|n] eqn:En; try lia.
  - exists (shr_record_of_loc (Zpos p) l). simpl.
    replace (e + d - 53) with e by lia. rewrite El, Em.
    repeat split; try assumption; replace d with 53 in Hb by lia; apply Hb.
  - unfold shr.
    destruct (inbetween_iter_shr_1 n (shr_record_of_loc (Zpos p) l) e x) as [E I].
    + rewrite Em. lia.
    + rewrite El, Em. exact Hx.
    + rewrite Em in E.
      exists (SpecFloat.iter_pos shr_1 n (shr_record_of_loc (Zpos p) l)).
      replace (e + d - 53) with (e + Zpos n) by lia.
      split; [reflexivity|]. split; [|exact I].
      rewrite E. unfold normal_mantissa.
      assert (Hp : 0 < 2 ^ Zpos n) by (apply Z.pow_pos_nonneg; lia).
      assert (H52 : 2 ^ (d - 1) = 2 ^ 52 * 2 ^ Zpos n)
        by (rewrite <- Z.pow_add_r by lia; f_equal; lia).
      assert (H53 : 2 ^ d = 2 ^ 53 * 2 ^ Zpos n)
        by (rewrite <- Z.pow_add_r by lia; f_equal; lia).
      split.
      * apply Z.div_le_lower_bound; lia.
      * apply Z.div_lt_upper_bound; lia.
Qed.

(** [binary_round_aux] on a located real: the result is a finite normal
    number next to the real, below or above it. *)
Lemma binary_round_aux_normal s p e l x :
  let d := Zpos (digits2_pos p) in
  53 <= d -> -1074 <= d + e - 53 -> d + e < 1024 ->
  inbetween (Zpos p) e l x ->
  exists mR eR,
    binary_round_aux prec emax s (Zpos p) e l = S754_finite s mR eR /\
    bounded prec emax mR eR = true /\
    e + d - 53 <= eR <= e + d - 52 /\
    is_round x mR eR.
Proof.
  intros d Hd Hlo Hhi Hx. unfold binary_round_aux.
  destruct (shr_fexp_normal p e l x Hd Hlo Hx) as (mrs & -> & Hn & Hin).
  fold d in Hin |- *.
  set (e' := e + d - 53) in *. set (m' := shr_m mrs) in *.
  set (m1 := round_nearest_even m' (loc_of_shr_record mrs)).
  assert (Hm1 : m1 = m' \/ m1 = m' + 1).
  { unfold m1, round_nearest_even. destruct (loc_of_shr_record mrs) as [|[]]; auto.
    destruct (Z.even m'); auto. }
  assert (Hspec : forall mf ef, normal_mantissa mf ->
    ((x <= F2R mf ef)%R -> (F2R m1 e' <= F2R mf ef)%R) /\
    ((F2R mf ef <= x)%R -> (F2R mf ef <= F2R m1 e')%R)).
  { intros mf ef Hf. destruct (normal_gap m' e' mf ef Hn Hf) as [G1 G2].
    pose proof (F2R_le m' (m' + 1) e' ltac:(lia)) as Hmono.
    unfold m1, round_nearest_even.
    destruct (loc_of_shr_record mrs) as [|c]; unfold inbetween in Hin.
    - subst x. split; auto.
    - destruct Hin as [[Hlow Hup] _].
      assert (Hc : match c with
                   | Eq => if Z.even m' then m' else m' + 1
                   | Lt => m' | Gt => m' + 1 end = m' \/
                   match c with
                   | Eq => if Z.even m' then m' else m' + 1
                   | Lt => m' | Gt => m' + 1 end = m' + 1)
        by (destruct c; auto; destruct (Z.even m'); auto).
      destruct Hc as [-> | ->]; split; intros H.
      + lra.
      + apply G2. lra.
      + apply G1. lra.
      + apply Rle_trans with (F2R m' e'); [|assumption]. apply G2. lra. }
  clearbody m1. unfold normal_mantissa in Hn.
  assert (Hcases : m1 < 2 ^ 53 \/ m1 = 2 ^ 53) by (clearbody m'; clear -Hn Hm1; lia).
  destruct Hcases as [Hlt | ->].
  - destruct m1 as [|p1|p1]; try lia.
    assert (Hd1 : Zpos (digits2_pos p1) = 53) by (apply digits2_unique; lia).
    unfold shr_fexp. simpl Zdigits2. rewrite Hd1.
    rewrite fexp_normal by (unfold e'; lia).
    replace (53 + e' - 53 - e') with 0 by lia. simpl.
    exists p1, e'. 
    assert (Hle : (e' <=? emax - prec) = true) by (apply Z.leb_le; unfold emax, prec, e'; lia).
    rewrite Hle. split; [reflexivity|]. split.
    + unfold bounded, canonical_mantissa. rewrite Hd1, fexp_normal by (unfold e'; lia).
      rewrite Hle. replace (53 + e' - 53) with e' by lia. now rewrite Z.eqb_refl.
    + split; [unfold e'; lia|]. split; [unfold normal_mantissa; lia | exact Hspec].
  - unfold shr_fexp. change (Zdigits2 (2 ^ 53)) with 54.
    rewrite fexp_normal by (unfold e'; lia).
    replace (54 + e' - 53 - e') with 1 by lia. simpl.
    exists (2 ^ 52)%positive, (e' + 1).
    assert (Hle : (e' + 1 <=? emax - prec) = true) by (apply Z.leb_le; unfold emax, prec, e'; lia).
    rewrite Hle. split; [reflexivity|]. split.
    + unfold bounded, canonical_mantissa.
      change (Zpos (digits2_pos (2 ^ 52))) with 53.
      rewrite fexp_normal by (unfold e'; lia). rewrite Hle.
      replace (53 + (e' + 1) - 53) with (e' + 1) by lia. now rewrite Z.eqb_refl.
    + split; [unfold e'; lia|]. split; [unfold normal_mantissa; simpl; lia|].
      assert (E : F2R (Zpos (2 ^ 52)) (e' + 1) = F2R (2 ^ 53) e').
      { rewrite <- (F2R_shift _ (e' + 1) 1) by lia.
        replace (e' + 1 - 1) with e' by lia. reflexivity. }
      rewrite E. exact Hspec.
Qed.

Lemma bpow_lt_inv a b : (bpow a < bpow b)%R -> a < b.
Proof.
  intros H. destruct (Z.lt_ge_cases a b) as [|Hge]; [assumption|].
  apply bpow_le in Hge. lra.
Qed.

Lemma digits_value_bounds p e :
  let d := Zpos (digits2_pos p) in
  (bpow (d + e - 1) <= F2R (Zpos p) e < bpow (d + e))%R.
Proof.
  cbv zeta. pose proof (digits2_bounds p) as [H1 H2].
  assert (H0 : 0 < Zpos (digits2_pos p)) by lia.
  replace (Zpos (digits2_pos p) + e - 1) with ((Zpos (digits2_pos p) - 1) + e) by lia.
  rewrite !bpow_add.
  rewrite (bpow_nonneg_IZR (Zpos (digits2_pos p) - 1)) by lia.
  rewrite (bpow_nonneg_IZR (Zpos (digits2_pos p))) by lia.
  split; [apply (F2R_le _ _ e H1) | apply (F2R_lt _ _ e H2)].
Qed.

(** The same, with the normal range stated on the value. *)
Lemma binary_round_aux_value s p e l x :
  53 <= Zpos (digits2_pos p) ->
  (bpow (-1022) <= x < bpow 1023)%R ->
  inbetween (Zpos p) e l x ->
  exists mR eR,
    binary_round_aux prec emax s (Zpos p) e l = S754_finite s mR eR /\
    bounded prec emax mR eR = true /\
    is_round x mR eR.
Proof.
  intros Hd [Hlo Hhi] Hx.
  pose proof (digits_value_bounds p e) as [B1 B2]. cbv zeta in B1, B2.
  assert (Hb : (F2R (Zpos p) e <= x < F2R (Zpos p + 1) e)%R).
  { pose proof (F2R_lt (Zpos p) (Zpos p + 1) e ltac:(lia)).
    destruct l; unfold inbetween in Hx; [subst x|]; lra. }
  assert (Hup : (F2R (Zpos p + 1) e <= bpow (Zpos (digits2_pos p) + e))%R).
  { pose proof (digits2_bounds p) as [_ H2].
    rewrite bpow_add, (bpow_nonneg_IZR (Zpos (digits2_pos p))) by lia.
    apply (F2R_le _ _ e). lia. }
  assert (-1022 < Zpos (digits2_pos p) + e) by (apply bpow_lt_inv; lra).
  assert (Zpos (digits2_pos p) + e - 1 < 1023) by (apply bpow_lt_inv; lra).
  destruct (binary_round_aux_normal s p e l x) as (mR & eR & E & Hbd & _ & Hr);
    try assumption; try lia.
  exists mR, eR. auto.
Qed.

Lemma iter_xO_mul p k : Zpos (Pos.iter xO p k) = Zpos p * 2 ^ Zpos k.
Proof.
  induction k as [|k IH] using Pos.peano_ind.
  - simpl. lia.
  - rewrite Pos.iter_succ, Pos2Z.inj_xO, IH, Pos2Z.inj_succ, Z.pow_succ_r by lia. lia.
Qed.

Lemma shl_align_value p e e' :
  e' <= e ->
  let '(m, e1) := shl_align p e e' in
  e1 = e' /\ Zpos m = Zpos p * 2 ^ (e - e').
Proof.
  intros H. unfold shl_align. destruct (e' - e) as [|k|k] eqn:E; try lia.
  - replace (e - e') with 0 by lia. split; lia.
  - split; [reflexivity|]. rewrite iter_xO_mul. f_equal. f_equal. lia.
Qed.

(** Rounding an exact scaled integer, whatever its number of digits. *)
Lemma binary_round_value s p e :
  (bpow (-1022) <= F2R (Zpos p) e < bpow 1023)%R ->
  exists mR eR,
    binary_round prec emax s p e = S754_finite s mR eR /\
    bounded prec emax mR eR = true /\
    is_round (F2R (Zpos p) e) mR eR.
Proof.
  intros Hx. unfold binary_round.
  pose proof (digits_value_bounds p e) as [B1 B2]. cbv zeta in B1, B2.
  assert (-1022 < Zpos (digits2_pos p) + e) by (apply bpow_lt_inv; lra).
  rewrite fexp_normal by lia.
  pose proof (digits2_bounds p) as [D1 D2].
  assert (0 < Zpos (digits2_pos p)) by lia.
  remember (Zpos (digits2_pos p)) as d eqn:Ed.
  destruct (Z.le_gt_cases 53 d) as [Hge|Hlt].
  - unfold shl_align. destruct (d + e - 53 - e) as [| |k] eqn:E; try lia;
      apply binary_round_aux_value; try assumption; try reflexivity;
      rewrite <- Ed; exact Hge.
  - pose proof (shl_align_value p e (d + e - 53) ltac:(lia)) as Hs.
    destruct (shl_align p e (d + e - 53)) as [m e1]. destruct Hs as [-> Hm].
    replace (e - (d + e - 53)) with (53 - d) in Hm by lia.
    assert (Hv : F2R (Zpos m) (d + e - 53) = F2R (Zpos p) e).
    { rewrite Hm. rewrite <- (F2R_shift (Zpos p) e (53 - d)) by lia.
      f_equal. lia. }
    rewrite <- Hv in Hx |- *.
    apply binary_round_aux_value; try assumption; [|reflexivity].
    assert (Zpos (digits2_pos m) = 53); [|lia].
    apply digits2_unique. rewrite Hm.
    replace (2 ^ (53 - 1)) with (2 ^ (d - 1) * 2 ^ (53 - d))
      by (rewrite <- Z.pow_add_r by lia; f_equal; lia).
    replace (2 ^ 53) with (2 ^ d * 2 ^ (53 - d))
      by (rewrite <- Z.pow_add_r by lia; f_equal; lia).
    assert (0 < 2 ^ (53 - d)) by (apply Z.pow_pos_nonneg; lia). nia.
Qed.

Lemma is_round_exact m e :
  normal_mantissa (Zpos m) -> is_round (F2R (Zpos m) e) m e.
Proof. intros H. split; [assumption|]. intros mf ef _. split; auto. Qed.

Lemma is_round_representable x m e mf ef :
  is_round x m e -> normal_mantissa mf -> F2R mf ef = x -> F2R (Zpos m) e = x.
Proof.
  intros [_ H] Hf E. destruct (H mf ef Hf) as [H1 H2]. rewrite E in *.
  apply Rle_antisym; [apply H1 | apply H2]; lra.
Qed.

Lemma normal_lt_exp m e mf ef :
  normal_mantissa m -> normal_mantissa mf -> ef < e -> (F2R mf ef < F2R m e)%R.
Proof.
  unfold normal_mantissa. intros Hm Hf Hlt.
  apply Rlt_le_trans with (F2R (2 ^ 53) ef); [apply F2R_lt; lia|].
  apply Rle_trans with (F2R (2 ^ 52) e); [|apply F2R_le; lia].
  unfold F2R. rewrite <- !bpow_nonneg_IZR, <- !bpow_add by lia.
  apply bpow_le. lia.
Qed.

(** The comparison of positive normal numbers is the order of their values. *)
Lemma SFleb_normal m1 e1 m2 e2 :
  normal_mantissa (Zpos m1) -> normal_mantissa (Zpos m2) ->
  (F2R (Zpos m1) e1 <= F2R (Zpos m2) e2)%R ->
  SFleb (S754_finite false m1 e1) (S754_finite false m2 e2) = true.
Proof.
  intros H1 H2 Hle. unfold SFleb, SFcompare.
  destruct (Z.compare_spec e1 e2) as [->|Hlt|Hgt]; [|reflexivity|].
  - apply F2R_le_inv in Hle. rewrite Pos.compare_cont_spec. simpl.
    destruct (Pos.compare_spec m1 m2); try reflexivity. lia.
  - pose proof (normal_lt_exp _ _ _ _ H1 H2 Hgt). lra.
Qed.

(** ** The arithmetic of numbers *)

Lemma F2R_opp m e : F2R (- m) e = (- F2R m e)%R.
Proof. unfold F2R. rewrite opp_IZR. lra. Qed.

Lemma F2R_sub m1 m2 e : F2R (m1 - m2) e = (F2R m1 e - F2R m2 e)%R.
Proof. unfold F2R. rewrite minus_IZR. lra. Qed.

Lemma F2R_int m : F2R m 0 = IZR m.
Proof. unfold F2R, bpow. simpl. lra. Qed.

Lemma F2R_pos p e : (0 < F2R (Zpos p) e)%R.
Proof.
  unfold F2R. apply Rmult_lt_0_compat; [apply IZR_lt; lia | apply bpow_gt_0].
Qed.

Lemma int_normal z :
  0 < z < 2 ^ 53 -> exists mf ef, normal_mantissa mf /\ F2R mf ef = IZR z.
Proof.
  intros Hz. destruct z as [|p|p]; try lia.
  pose proof (digits2_bounds p) as [D1 D2].
  assert (H0 : 0 < Zpos (digits2_pos p)) by lia.
  remember (Zpos (digits2_pos p)) as d eqn:Ed.
  assert (d <= 53).
  { destruct (Z.le_gt_cases d 53); [assumption|].
    assert (2 ^ 53 <= 2 ^ (d - 1)) by (apply Z.pow_le_mono_r; lia). lia. }
  exists (Zpos p * 2 ^ (53 - d)), (0 - (53 - d)). split.
  - unfold normal_mantissa.
    replace (2 ^ 52) with (2 ^ (d - 1) * 2 ^ (53 - d))
      by (rewrite <- Z.pow_add_r by lia; f_equal; lia).
    replace (2 ^ 53) with (2 ^ d * 2 ^ (53 - d))
      by (rewrite <- Z.pow_add_r by lia; f_equal; lia).
    assert (0 < 2 ^ (53 - d)) by (apply Z.pow_pos_nonneg; lia). nia.
  - rewrite F2R_shift by lia. apply F2R_int.
Qed.

Lemma int_value_bounds z :
  0 < z < 2 ^ 54 -> (bpow (-1022) <= IZR z < bpow 1023)%R.
Proof.
  intros [H1 H2]. split.
  - apply Rle_trans with (bpow 0); [apply bpow_le; lia|].
    change (bpow 0) with 1%R. apply IZR_le. lia.
  - apply Rlt_le_trans with (bpow 54); [|apply bpow_le; lia].
    rewrite bpow_nonneg_IZR by lia. apply IZR_lt. exact H2.
Qed.

(** Integers below 2^53 are numbers. *)
Lemma num_of_Z_spec z :
  z <> 0 -> Z.abs z < 2 ^ 53 ->
  exists m e, num_of_Z z = S754_finite (z <? 0) m e /\
    bounded prec emax m e = true /\
    normal_mantissa (Zpos m) /\ F2R (Zpos m) e = IZR (Z.abs z).
Proof.
  intros Hz Hb. unfold num_of_Z, binary_normalize.
  assert (Hgen : forall s p, Zpos p < 2 ^ 53 ->
    exists m e, binary_round prec emax s p 0 = S754_finite s m e /\
      bounded prec emax m e = true /\
      normal_mantissa (Zpos m) /\ F2R (Zpos m) e = IZR (Zpos p)).
  { intros s p Hp.
    destruct (binary_round_value s p 0) as (m & e & E & Hbd & Hr).
    - rewrite F2R_int. apply int_value_bounds. lia.
    - exists m, e. repeat split; try assumption; try apply Hr.
      destruct (int_normal (Zpos p)) as (mf & ef & Hf & Ef); [lia|].
      rewrite F2R_int in Hr. eapply is_round_representable; eassumption. }
  destruct z as [|p|p]; [congruence| |]; apply Hgen; lia.
Qed.

Lemma num_of_Z_value z :
  Z.abs z < 2 ^ 53 -> SF2R (num_of_Z z) = IZR z.
Proof.
  intros Hb. destruct (Z.eq_dec z 0) as [->|Hz]; [reflexivity|].
  destruct (num_of_Z_spec z Hz Hb) as (m & e & -> & _ & _ & E).
  unfold SF2R. destruct z as [|p|p]; try congruence; simpl in *.
  - exact E.
  - change (Zneg m) with (- Zpos m). rewrite F2R_opp, E.
    change (Zneg p) with (- Zpos p). now rewrite opp_IZR.
Qed.

(** Subtraction of finite numbers: exact difference, then one rounding. *)
Lemma num_sub_finite sx mx ex sy my ey :
  let x := S754_finite sx mx ex in
  let y := S754_finite sy my ey in
  exists M e, num_sub x y = binary_normalize prec emax M e false /\
    F2R M e = (SF2R x - SF2R y)%R.
Proof.
  cbv zeta. unfold num_sub, SFsub.
  pose proof (shl_align_value mx ex (Z.min ex ey) ltac:(lia)) as Hx.
  pose proof (shl_align_value my ey (Z.min ex ey) ltac:(lia)) as Hy.
  destruct (shl_align mx ex (Z.min ex ey)) as [mx' ex'].
  destruct (shl_align my ey (Z.min ex ey)) as [my' ey'].
  destruct Hx as [_ Hx], Hy as [_ Hy]. simpl fst.
  eexists _, _. split; [reflexivity|].
  rewrite F2R_sub. unfold SF2R.
  assert (Hc : forall s m m' e, Zpos m' = Zpos m * 2 ^ (e - Z.min ex ey) ->
    Z.min ex ey <= e ->
    F2R (cond_Zopp s (Zpos m')) (Z.min ex ey) = F2R (cond_Zopp s (Zpos m)) e).
  { intros s m m' e Hm Hle.
    rewrite <- (F2R_shift (cond_Zopp s (Zpos m)) e (e - Z.min ex ey)) by lia.
    replace (e - (e - Z.min ex ey)) with (Z.min ex ey) by lia.
    f_equal. rewrite Hm. destruct s; simpl cond_Zopp; lia. }
  rewrite (Hc sx mx mx' ex Hx), (Hc sy my my' ey Hy) by lia. reflexivity.
Qed.

Lemma binary_normalize_value M e :
  (bpow (-1022) <= Rabs (F2R M e) < bpow 1023)%R ->
  exists mR eR,
    binary_normalize prec emax M e false = S754_finite (M <? 0) mR eR /\
    bounded prec emax mR eR = true /\
    is_round (Rabs (F2R M e)) mR eR.
Proof.
  intros Hv. destruct M as [|p|p].
  - exfalso. unfold F2R in Hv. rewrite Rmult_0_l, Rabs_R0 in Hv.
    pose proof (bpow_gt_0 (-1022)). lra.
  - rewrite Rabs_pos_eq in * by (left; apply F2R_pos).
    apply binary_round_value. exact Hv.
  - change (Zneg p) with (- Zpos p) in *. rewrite F2R_opp, Rabs_Ropp in *.
    rewrite Rabs_pos_eq in * by (left; apply F2R_pos).
    apply binary_round_value. exact Hv.
Qed.

(** The difference of two integers below 2^53: zero when they are equal, and
    otherwise a finite number next to the exact difference, with its sign. *)
Lemma num_sub_of_Z a b :
  Z.abs a < 2 ^ 53 -> Z.abs b < 2 ^ 53 ->
  (a = b -> num_sub (num_of_Z a) (num_of_Z b) = S754_zero false) /\
  (a <> b -> exists m e,
     num_sub (num_of_Z a) (num_of_Z b) = S754_finite (a <? b) m e /\
     bounded prec emax m e = true /\
     is_round (IZR (Z.abs (a - b))) m e).
Proof.
  intros Ha Hb.
  destruct (Z.eq_dec a 0) as [->|Ha0]; destruct (Z.eq_dec b 0) as [->|Hb0].
  - split; [reflexivity | congruence].
  - destruct (num_of_Z_spec b Hb0 Hb) as (m & e & E & Hbd & Hn & Hv).
    split; [congruence|]. intros _. rewrite E. simpl.
    exists m, e. split; [|split; [assumption|]].
    + f_equal. destruct b; try congruence; reflexivity.
    + replace (Z.abs (0 - b)) with (Z.abs b) by lia. rewrite <- Hv.
      now apply is_round_exact.
  - destruct (num_of_Z_spec a Ha0 Ha) as (m & e & E & Hbd & Hn & Hv).
    split; [congruence|]. intros _. rewrite E. simpl.
    exists m, e. split; [|split; [assumption|]].
    + reflexivity.
    + replace (Z.abs (a - 0)) with (Z.abs a) by lia. rewrite <- Hv.
      now apply is_round_exact.
  - pose proof (num_of_Z_value a Ha) as Va. pose proof (num_of_Z_value b Hb) as Vb.
    destruct (num_of_Z_spec a Ha0 Ha) as (ma & ea & Ea & _).
    destruct (num_of_Z_spec b Hb0 Hb) as (mb & eb & Eb & _).
    rewrite Ea, Eb in *.
    destruct (num_sub_finite (a <? 0) ma ea (b <? 0) mb eb) as (M & e & E & Hv).
    cbv zeta in Hv. rewrite Va, Vb, <- minus_IZR in Hv. rewrite E.
    split.
    + intros ->. rewrite Z.sub_diag in Hv.
      assert (M = 0).
      { destruct (Z.eq_dec M 0) as [|Hne]; [assumption|]. exfalso.
        unfold F2R in Hv. pose proof (bpow_gt_0 e).
        assert (IZR M <> 0%R) by (apply not_0_IZR; assumption).
        apply Rmult_integral in Hv. lra. }
      subst M. reflexivity.
    + intros Hne.
      assert (Hs : (M <? 0) = (a <? b)).
      { assert (Hlt : M < 0 <-> a < b).
        { split; intros H.
          - apply (F2R_lt _ _ e) in H. unfold F2R at 2 in H. rewrite Rmult_0_l, Hv in H.
            apply lt_IZR in H. lia.
          - apply (F2R_lt_inv _ _ e). unfold F2R at 2. rewrite Rmult_0_l, Hv.
            apply IZR_lt. lia. }
        destruct (Z.ltb_spec M 0), (Z.ltb_spec a b); try reflexivity; lia. }
      rewrite <- Hs, abs_IZR, <- Hv.
      apply binary_normalize_value. rewrite Hv, <- abs_IZR.
      apply int_value_bounds. lia.
Qed.

(** The location computed from a remainder locates the exact quotient. *)
Lemma new_location_inbetween n r q e :
  0 <= r < n ->
  inbetween q e (new_location n r) ((IZR q + IZR r / IZR n) * bpow e)%R.
Proof.
  intros [Hr Hn]. pose proof (bpow_gt_0 e) as Hu.
  assert (Hn0 : (0 < IZR n)%R) by (apply IZR_lt; lia).
  assert (Hexact : r = 0 -> ((IZR q + IZR r / IZR n) * bpow e)%R = F2R q e).
  { intros ->. unfold F2R. unfold Rdiv. rewrite Rmult_0_l. lra. }
  assert (Hfrac : 0 < r -> (0 < IZR r / IZR n < 1)%R).
  { intros H. apply IZR_lt in H. apply IZR_lt in Hn. split.
    - apply Rdiv_lt_0_compat; lra.
    - apply Rmult_lt_reg_r with (IZR n); [lra|].
      unfold Rdiv. rewrite Rmult_assoc, Rinv_l by lra. lra. }
  assert (Hhalf : forall c, (2 * r ?= n) = c ->
    match c with
    | Lt => (IZR r / IZR n < 1 / 2)%R
    | Eq => (IZR r / IZR n = 1 / 2)%R
    | Gt => (1 / 2 < IZR r / IZR n)%R
    end).
  { intros c Hc. destruct (Z.compare_spec (2 * r) n) as [H|H|H]; subst c.
    - apply (f_equal IZR) in H. rewrite mult_IZR in H. field_simplify_eq; lra.
    - apply IZR_lt in H. rewrite mult_IZR in H.
      apply Rmult_lt_reg_r with (IZR n); [lra|].
      unfold Rdiv. rewrite Rmult_assoc, Rinv_l by lra. lra.
    - apply IZR_lt in H. rewrite mult_IZR in H.
      apply Rmult_lt_reg_r with (IZR n); [lra|].
      unfold Rdiv at 2. rewrite Rmult_assoc, Rinv_l by lra. lra. }
  assert (Hshape : forall c, 0 < r ->
    match c with
    | Lt => (IZR r / IZR n < 1 / 2)%R
    | Eq => (IZR r / IZR n = 1 / 2)%R
    | Gt => (1 / 2 < IZR r / IZR n)%R
    end ->
    inbetween q e (loc_Inexact c) ((IZR q + IZR r / IZR n) * bpow e)%R).
  { intros c H0 Hc. specialize (Hfrac H0). unfold inbetween, F2R.
    rewrite bpow_pred, !plus_IZR, mult_IZR.
    split; [split; nra|]. destruct c; nra. }
  unfold new_location. destruct (Z.even n) eqn:Ev.
  - unfold new_location_even. destruct (Z.eqb_spec r 0) as [E|E].
    + simpl. auto.
    + apply Hshape; [lia|]. now apply Hhalf.
  - unfold new_location_odd. destruct (Z.eqb_spec r 0) as [E|E].
    + simpl. auto.
    + assert (Hodd : 2 * r <> n).
      { intros <-. rewrite Z.even_mul in Ev. discriminate. }
      destruct (Z.compare_spec (2 * r + 1) n) as [H|H|H].
      * apply (Hshape Lt); [lia|]. apply (Hhalf Lt). apply Z.compare_lt_iff. lia.
      * apply (Hshape Lt); [lia|]. apply (Hhalf Lt). apply Z.compare_lt_iff. lia.
      * apply (Hshape Gt); [lia|]. apply (Hhalf Gt). apply Z.compare_gt_iff. lia.
Qed.

(** Division and multiplication of normal numbers, away from overflow and
    underflow: a finite number next to the exact result. *)
Lemma num_div_normal sx mx ex sy my ey :
  normal_mantissa (Zpos mx) -> normal_mantissa (Zpos my) ->
  -1021 <= ex - ey ->
  let X := (F2R (Zpos mx) ex / F2R (Zpos my) ey)%R in
  (bpow (-1022) <= X < bpow 1023)%R ->
  exists m e,
    num_div (S754_finite sx mx ex) (S754_finite sy my ey)
      = S754_finite (xorb sx sy) m e /\
    bounded prec emax m e = true /\ is_round X m e.
Proof.
  intros Hx Hy He X HX. unfold num_div, SFdiv, SFdiv_core_binary.
  pose proof (proj1 (normal_mantissa_digits mx) Hx) as Dx.
  pose proof (proj1 (normal_mantissa_digits my) Hy) as Dy.
  simpl Zdigits2. rewrite Dx, Dy.
  rewrite fexp_normal by lia.
  replace (Z.min (53 + ex - (53 + ey) - 53) (ex - ey)) with (ex - ey - 53) by lia.
  replace (ex - ey - (ex - ey - 53)) with 53 by lia.
  cbv iota beta. rewrite Z.shiftl_mul_pow2 by lia.
  pose proof (Z_div_mod (Zpos mx * 2 ^ 53) (Zpos my) ltac:(lia)) as Hdiv.
  destruct (Z.div_eucl (Zpos mx * 2 ^ 53) (Zpos my)) as [q r].
  destruct Hdiv as [Hq Hr]. unfold normal_mantissa in Hx, Hy.
  assert (Hqb : 2 ^ 52 <= q < 2 ^ 54) by (change (2 ^ 52) with 4503599627370496 in *;
    change (2 ^ 53) with 9007199254740992 in *;
    change (2 ^ 54) with 18014398509481984; nia).
  destruct q as [|pq|pq]; try lia.
  assert (Hdq : 53 <= Zpos (digits2_pos pq)).
  { pose proof (digits2_bounds pq) as [_ D2].
    destruct (Z.le_gt_cases 53 (Zpos (digits2_pos pq))); [assumption|].
    assert (2 ^ Zpos (digits2_pos pq) <= 2 ^ 52) by (apply Z.pow_le_mono_r; lia).
    lia. }
  assert (EX : X = ((IZR (Zpos pq) + IZR r / IZR (Zpos my)) * bpow (ex - ey - 53))%R).
  { unfold X, F2R.
    assert (Hmy : (0 < IZR (Zpos my))%R) by (apply IZR_lt; lia).
    pose proof (bpow_gt_0 ey) as Hey.
    apply (f_equal IZR) in Hq. rewrite plus_IZR, !mult_IZR in Hq.
    rewrite <- bpow_nonneg_IZR in Hq by lia.
    replace ex with ((ex - ey - 53) + 53 + ey) at 1 by lia.
    rewrite !bpow_add.
    field_simplify_eq; [|lra]. nra. }
  rewrite EX in HX |- *.
  apply binary_round_aux_value; try assumption.
  apply new_location_inbetween. exact Hr.
Qed.

Lemma num_mul_normal sx mx ex sy my ey :
  normal_mantissa (Zpos mx) -> normal_mantissa (Zpos my) ->
  let X := (F2R (Zpos mx) ex * F2R (Zpos my) ey)%R in
  (bpow (-1022) <= X < bpow 1023)%R ->
  exists m e,
    num_mul (S754_finite sx mx ex) (S754_finite sy my ey)
      = S754_finite (xorb sx sy) m e /\
    bounded prec emax m e = true /\ is_round X m e.
Proof.
  intros Hx Hy X HX. unfold num_mul, SFmul.
  assert (EX : X = F2R (Zpos (mx * my)) (ex + ey)).
  { unfold X, F2R. rewrite Pos2Z.inj_mul, mult_IZR, bpow_add. lra. }
  rewrite EX in HX |- *.
  apply binary_round_aux_value; try assumption; [|reflexivity].
  pose proof (digits2_bounds (mx * my)) as [_ D2].
  unfold normal_mantissa in Hx, Hy. rewrite Pos2Z.inj_mul in D2.
  destruct (Z.le_gt_cases 53 (Zpos (digits2_pos (mx * my)))); [assumption|].
  assert (2 ^ Zpos (digits2_pos (mx * my)) <= 2 ^ 52) by (apply Z.pow_le_mono_r; lia).
  change (2 ^ 52) with 4503599627370496 in *. nia.
Qed.

(** A finite number divided by itself is exactly one. *)
Lemma num_div_diag s m e :
  num_div (S754_finite s m e) (S754_finite s m e) = num_one.
Proof.
  unfold num_div, SFdiv, SFdiv_core_binary.
  replace (Zdigits2 (Zpos m) + e - (Zdigits2 (Zpos m) + e)) with 0 by lia.
  rewrite Z.sub_diag. change (Z.min (fexp prec emax 0) 0) with (-53).
  change (0 - -53) with 53. cbv iota beta.
  rewrite Z.shiftl_mul_pow2 by lia.
  assert (E : Z.div_eucl (Zpos m * 2 ^ 53) (Zpos m) = (2 ^ 53, 0)).
  { pose proof (Z_div_mod (Zpos m * 2 ^ 53) (Zpos m) ltac:(lia)) as H.
    destruct (Z.div_eucl (Zpos m * 2 ^ 53) (Zpos m)) as [q r].
    destruct H as [Hq Hr]. assert (q = 2 ^ 53) by nia. f_equal; lia. }
  rewrite E. 
  assert (L : new_location (Zpos m) 0 = loc_Exact).
  { unfold new_location, new_location_even, new_location_odd.
    destruct (Z.even (Zpos m)); reflexivity. }
  rewrite L. destruct s; reflexivity.
Qed.

(** ** The position formula on time values *)

Lemma F2R_bpow k : F2R (2 ^ 52) (k - 52) = bpow k.
Proof.
  unfold F2R. rewrite <- bpow_nonneg_IZR, <- bpow_add by lia. f_equal. lia.
Qed.

Lemma normal_pow52 : normal_mantissa (2 ^ 52).
Proof. unfold normal_mantissa. simpl. lia. Qed.

Lemma is_round_ge_bpow x m e k :
  is_round x m e -> (bpow k <= x)%R -> (bpow k <= F2R (Zpos m) e)%R.
Proof.
  intros [_ H] Hx. rewrite <- F2R_bpow in *.
  now apply (H (2 ^ 52) (k - 52) normal_pow52).
Qed.

Lemma is_round_le_bpow x m e k :
  is_round x m e -> (x <= bpow k)%R -> (F2R (Zpos m) e <= bpow k)%R.
Proof.
  intros [_ H] Hx. rewrite <- F2R_bpow in *.
  now apply (H (2 ^ 52) (k - 52) normal_pow52).
Qed.

Lemma is_round_monotone x m e y m' e' mf ef :
  is_round x m e -> is_round y m' e' -> normal_mantissa mf ->
  (x <= F2R mf ef <= y)%R -> (F2R (Zpos m) e <= F2R (Zpos m') e')%R.
Proof.
  intros [_ Hx] [_ Hy] Hf [H1 H2].
  apply Rle_trans with (F2R mf ef).
  - now apply (Hx mf ef Hf).
  - now apply (Hy mf ef Hf).
Qed.

Lemma normal_exp_bounds m e lo hi :
  normal_mantissa m -> (bpow lo <= F2R m e <= bpow hi)%R ->
  lo - 53 < e <= hi - 52.
Proof.
  unfold normal_mantissa. intros Hm [H1 H2].
  assert (B1 : (bpow (52 + e) <= F2R m e)%R).
  { rewrite bpow_add, (bpow_nonneg_IZR 52) by lia. apply F2R_le. lia. }
  assert (B2 : (F2R m e < bpow (53 + e))%R).
  { rewrite bpow_add, (bpow_nonneg_IZR 53) by lia. apply F2R_lt. lia. }
  assert (lo < 53 + e) by (apply bpow_lt_inv; lra).
  assert (52 + e < hi + 1).
  { apply bpow_lt_inv. apply Rle_lt_trans with (bpow hi); [lra|].
    apply bpow_lt. lia. }
  lia.
Qed.

(** Between two integers below 2^54 lies a number, unless they are equal. *)
Lemma int_between n1 n2 :
  0 < n1 < n2 -> n2 < 2 ^ 54 ->
  exists mf ef, normal_mantissa mf /\ (IZR n1 <= F2R mf ef <= IZR n2)%R.
Proof.
  intros H1 H2. destruct (Z.lt_ge_cases n1 (2 ^ 53)) as [Hs|Hl].
  - destruct (int_normal n1) as (mf & ef & Hf & E); [lia|].
    exists mf, ef. split; [assumption|]. rewrite E. split; [lra|].
    apply IZR_le. lia.
  - set (k := (n1 + 1) / 2).
    assert (Hk : n1 <= 2 * k <= n1 + 1).
    { unfold k. pose proof (Z.div_mod (n1 + 1) 2 ltac:(lia)).
      pose proof (Z.mod_pos_bound (n1 + 1) 2 ltac:(lia)). lia. }
    clearbody k.
    destruct (Z.eq_dec k (2 ^ 53)) as [->|Hne].
    + exfalso. change (2 ^ 53) with 9007199254740992 in *.
      change (2 ^ 54) with 18014398509481984 in *. lia.
    + destruct (int_normal k) as (mf & ef & Hf & E).
      { change (2 ^ 53) with 9007199254740992 in *.
        change (2 ^ 54) with 18014398509481984 in *. lia. }
      exists mf, (ef + 1). split; [assumption|].
      replace (F2R mf (ef + 1)) with (IZR (2 * k)).
      * split; apply IZR_le; lia.
      * unfold F2R in *. rewrite bpow_succ, mult_IZR, <- E. lra.
Qed.

Lemma hundred_normal : normal_mantissa 7036874417766400.
Proof. unfold normal_mantissa. simpl. lia. Qed.

Lemma hundred_value : F2R 7036874417766400 (-46) = 100%R.
Proof.
  change 7036874417766400 with (25 * 2 ^ 48).
  replace (-46) with (2 - 48) by lia. rewrite F2R_shift by lia.
  unfold F2R, bpow. simpl. lra.
Qed.

(** For time values [a <= t <= b] with [a < b], the range is not zero and
    the computed position of [t] lies between [0] and [100]. *)
Lemma position_in_range a t b :
  Z.abs a <= max_time -> Z.abs t <= max_time -> Z.abs b <= max_time ->
  a <= t <= b -> a < b ->
  let start := num_of_Z a in
  let range := num_sub (num_of_Z b) start in
  let p := num_mul (num_div (num_sub (num_of_Z t) start) range) num_hundred in
  num_eq range num_zero = false /\
  num_le num_zero p = true /\ num_le p num_hundred = true.
Proof.
  unfold max_time. intros Ha Ht Hb Hat Hab. cbv zeta.
  assert (Hp : 8640000000000000 < 2 ^ 53) by reflexivity.
  destruct (num_sub_of_Z b a ltac:(lia) ltac:(lia)) as [_ Hr].
  destruct (Hr ltac:(lia)) as (mr & er & Er & _ & Rr). clear Hr.
  replace (b <? a) with false in Er by (symmetry; apply Z.ltb_ge; lia).
  rewrite Er. split; [reflexivity|].
  destruct (num_sub_of_Z t a ltac:(lia) ltac:(lia)) as [Hd0 Hd].
  destruct (Z.eq_dec t a) as [E|Hne].
  - rewrite (Hd0 E). split; reflexivity.
  - destruct (Hd Hne) as (md & ed & Ed & _ & Rd). clear Hd Hd0.
    replace (t <? a) with false in Ed by (symmetry; apply Z.ltb_ge; lia).
    rewrite Ed.
    rewrite Z.abs_eq in Rr, Rd by lia.
    pose (D := F2R (Zpos md) ed). pose (G := F2R (Zpos mr) er).
    assert (HD1 : (bpow 0 <= D)%R).
    { apply (is_round_ge_bpow _ _ _ 0 Rd). change (bpow 0) with (IZR 1).
      apply IZR_le. lia. }
    assert (HG2 : (G <= bpow 54)%R).
    { apply (is_round_le_bpow _ _ _ 54 Rr). rewrite bpow_nonneg_IZR by lia.
      apply IZR_le. change (2 ^ 54) with 18014398509481984. lia. }
    assert (HDG : (D <= G)%R).
    { destruct (Z.eq_dec t b) as [->|Htb].
      - assert (Es : S754_finite false md ed = S754_finite false mr er) by congruence.
        injection Es as -> ->. unfold D, G. lra.
      - destruct (int_between (t - a) (b - a)) as (mf & ef & Hf & Hbt); [lia| |].
        { change (2 ^ 54) with 18014398509481984. lia. }
        exact (is_round_monotone _ _ _ _ _ _ _ _ Rd Rr Hf Hbt). }
    destruct Rd as [Nd Rd], Rr as [Nr Rr'].
    unfold D, G in *. clear D G.
    clear Hp.
    destruct (normal_exp_bounds (Zpos md) ed 0 54 Nd ltac:(lra)) as [Ed1 Ed2].
    destruct (normal_exp_bounds (Zpos mr) er 0 54 Nr ltac:(lra)) as [Er1 Er2].
    assert (HG0 : (0 < F2R (Zpos mr) er)%R) by (pose proof (bpow_gt_0 0); lra).
    assert (HD0 : (0 < F2R (Zpos md) ed)%R) by (pose proof (bpow_gt_0 0); lra).
    assert (HX1 : (F2R (Zpos md) ed / F2R (Zpos mr) er <= bpow 0)%R).
    { change (bpow 0) with 1%R. apply Rmult_le_reg_r with (F2R (Zpos mr) er); [assumption|].
      unfold Rdiv. rewrite Rmult_assoc, Rinv_l by lra. lra. }
    assert (HX2 : (bpow (-54) <= F2R (Zpos md) ed / F2R (Zpos mr) er)%R).
    { apply Rmult_le_reg_r with (F2R (Zpos mr) er); [assumption|].
      unfold Rdiv at 1. rewrite Rmult_assoc, Rinv_l by lra.
      apply Rle_trans with (bpow (-54) * bpow 54)%R.
      - apply Rmult_le_compat_l; [left; apply bpow_gt_0 | assumption].
      - rewrite <- bpow_add. change (bpow (-54 + 54)) with (bpow 0). lra. }
    destruct (num_div_normal false md ed false mr er Nd Nr ltac:(lia))
      as (mq & eq & Eq & _ & Rq).
    { split.
      - apply Rle_trans with (bpow (-54)); [apply bpow_le; lia | assumption].
      - apply Rle_lt_trans with (bpow 0); [assumption | apply bpow_lt; lia]. }
    rewrite Eq. simpl xorb.
    pose proof (is_round_le_bpow _ _ _ 0 Rq HX1) as HQ1.
    pose proof (is_round_ge_bpow _ _ _ (-54) Rq HX2) as HQ2.
    destruct Rq as [Nq _].
    unfold num_hundred.
    destruct (num_mul_normal false mq eq false 7036874417766400 (-46) Nq hundred_normal)
      as (mp & ep & Ep & _ & Rp).
    { rewrite hundred_value. split.
      - apply Rle_trans with (bpow (-54)); [apply bpow_le; lia|].
        pose proof (bpow_gt_0 (-54)). lra.
      - apply Rle_lt_trans with (bpow 7); [|apply bpow_lt; lia].
        rewrite (bpow_nonneg_IZR 7) by lia. change (2 ^ 7) with 128.
        change (bpow 0) with 1%R in *. lra. }
    rewrite Ep. simpl xorb. split; [reflexivity|].
    destruct Rp as [Np Rp].
    apply SFleb_normal; [assumption | apply hundred_normal |].
    apply (Rp _ _ hundred_normal). rewrite hundred_value.
    change (bpow 0) with 1%R in *. lra.
Qed.

(** * The timeline mapper *)

(** ** First and last positions *)

Lemma max_time_lt z : Z.abs z <= max_time -> Z.abs z < 2 ^ 53.
Proof. unfold max_time. change (2 ^ 53) with 9007199254740992. lia. Qed.

Lemma num_sub_diag_of_Z a :
  Z.abs a < 2 ^ 53 -> num_sub (num_of_Z a) (num_of_Z a) = S754_zero false.
Proof. intros Ha. now apply (num_sub_of_Z a a Ha Ha). Qed.

Lemma position_first a b :
  Z.abs a <= max_time -> Z.abs b <= max_time -> a <> b ->
  let start := num_of_Z a in
  let range := num_sub (num_of_Z b) start in
  num_eq range num_zero = false /\
  num_eq (num_mul (num_div (num_sub start start) range) num_hundred) num_zero = true.
Proof.
  intros Ha Hb Hab. cbv zeta. apply max_time_lt in Ha, Hb.
  destruct (num_sub_of_Z b a Hb Ha) as [_ H].
  destruct (H ltac:(congruence)) as (m & e & -> & _). clear H.
  rewrite (num_sub_diag_of_Z a Ha).
  split; destruct (b <? a); reflexivity.
Qed.

Lemma position_last a b :
  Z.abs a <= max_time -> Z.abs b <= max_time -> a <> b ->
  let range := num_sub (num_of_Z b) (num_of_Z a) in
  num_eq range num_zero = false /\
  num_mul (num_div range range) num_hundred = num_hundred.
Proof.
  intros Ha Hb Hab. cbv zeta. apply max_time_lt in Ha, Hb.
  destruct (num_sub_of_Z b a Hb Ha) as [_ H].
  destruct (H ltac:(congruence)) as (m & e & -> & _). clear H.
  rewrite num_div_diag.
  split; [destruct (b <? a); reflexivity | reflexivity].
Qed.

(** ** [uniqueDates] keeps first occurrences *)

Lemma filter_unseen_spec (pre suf : list BlockEntry.t) :
  filter_unseen (list_to_set (BlockEntry.date <$> pre)) suf =
  snd <$> filter (fun ie => is_first_occurrence (pre ++ suf) ie.1 ie.2)
                 (imap (fun i e => (length pre + i, e)%nat) suf).
Proof.
  revert pre. induction suf as [|e rest IH]; intros pre; [reflexivity|].
  rewrite imap_cons. simpl filter_unseen.
  assert (Hset : list_to_set (BlockEntry.date <$> (pre ++ [e]))
                 = ({[BlockEntry.date e]}
                      ∪ list_to_set (BlockEntry.date <$> pre) : gset string)).
  { rewrite fmap_app, list_to_set_app_L. simpl. set_solver. }
  assert (Htail :
    snd <$> filter (fun ie => is_first_occurrence (pre ++ e :: rest) ie.1 ie.2)
              (imap ((fun i e0 => (length pre + i, e0)%nat) ∘ S) rest)
    = filter_unseen (list_to_set (BlockEntry.date <$> (pre ++ [e]))) rest).
  { rewrite IH. rewrite <- app_assoc. simpl. f_equal. f_equal.
    apply imap_ext. intros i x _. simpl. rewrite length_app. simpl. f_equal. lia. }
  rewrite filter_cons. simpl fst. simpl snd.
  assert (Hhead : is_first_occurrence (pre ++ e :: rest) (length pre + 0) e
                  <-> BlockEntry.date e
                        ∉ (list_to_set (BlockEntry.date <$> pre) : gset string)).
  { unfold is_first_occurrence. rewrite Nat.add_0_r, take_app_length.
    rewrite elem_of_list_to_set. reflexivity. }
  destruct (decide (BlockEntry.date e ∈ list_to_set (BlockEntry.date <$> pre)))
    as [Hin|Hnin].
  - rewrite decide_False by (rewrite Hhead; auto).
    rewrite Htail, Hset. f_equal. set_solver.
  - rewrite decide_True by (rewrite Hhead; auto).
    rewrite fmap_cons. simpl. f_equal. rewrite Htail, Hset. reflexivity.
Qed.

Lemma uniqueDates_first_occurrences entries :
  uniqueDates entries = first_occurrences entries.
Proof.
  unfold uniqueDates, first_occurrences.
  pose proof (filter_unseen_spec [] entries) as H. simpl in H. exact H.
Qed.

Lemma filter_unseen_Forall (P : BlockEntry.t -> Prop) entries : forall seen,
  Forall P entries -> Forall P (filter_unseen seen entries).
Proof.
  induction entries as [|e rest IH]; intros seen H; [constructor|].
  apply Forall_cons in H as [He Hr]. simpl.
  destruct (decide _); [auto | constructor; auto].
Qed.

Lemma filter_unseen_StronglySorted (R : relation BlockEntry.t) entries :
  forall seen, StronglySorted R entries ->
  StronglySorted R (filter_unseen seen entries).
Proof.
  induction entries as [|e rest IH]; intros seen H; [constructor|].
  apply StronglySorted_cons in H as [He Hr]. simpl.
  destruct (decide _); [auto|].
  apply StronglySorted_cons. split; [|auto].
  now apply filter_unseen_Forall.
Qed.

Lemma filter_unseen_sublist entries : forall seen,
  filter_unseen seen entries `sublist_of` entries.
Proof.
  induction entries as [|e rest IH]; intros seen; simpl; [constructor|].
  destruct (decide _); [apply sublist_cons | apply sublist_skip]; apply IH.
Qed.

Lemma NoDup_filter_unseen entries : forall seen,
  NoDup (BlockEntry.date <$> filter_unseen seen entries) /\
  Forall (fun e => BlockEntry.date e ∉ seen) (filter_unseen seen entries).
Proof.
  induction entries as [|e rest IH]; intros seen; simpl.
  - split; constructor.
  - destruct (decide _) as [Hin|Hnin]; [apply IH|].
    destruct (IH ({[BlockEntry.date e]} ∪ seen)) as [Hnd Hall].
    split.
    + rewrite fmap_cons. apply NoDup_cons. split; [|assumption].
      intros Hd. apply list_elem_of_fmap in Hd as (e' & Heq & He').
      rewrite Forall_forall in Hall. specialize (Hall e' He'). set_solver.
    + constructor; [assumption|].
      eapply Forall_impl; [exact Hall|]. intros x Hx. set_solver.
Qed.

Lemma filter_unseen_all_seen entries : forall seen,
  Forall (fun e => BlockEntry.date e ∈ seen) entries ->
  filter_unseen seen entries = [].
Proof.
  induction entries as [|e rest IH]; intros seen H; [reflexivity|].
  apply Forall_cons in H as [He Hr]. simpl.
  rewrite decide_True by assumption. now apply IH.
Qed.

(** Entries that all share one display date have one unique date. *)
Lemma uniqueDates_one_date entries d :
  Forall (fun e => BlockEntry.date e = d) entries ->
  uniqueDates entries = take 1 entries.
Proof.
  intros H. destruct entries as [|e rest]; [reflexivity|].
  apply Forall_cons in H as [He Hr]. unfold uniqueDates. simpl.
  rewrite decide_False by set_solver. f_equal.
  apply filter_unseen_all_seen. eapply Forall_impl; [exact Hr|].
  intros x Hx. simpl in Hx. set_solver.
Qed.

Lemma head_last_nonempty (uniq : list BlockEntry.t) :
  uniq <> [] -> exists first last_, head uniq = Some first /\ last uniq = Some last_.
Proof.
  intros Hne. destruct uniq as [|x l]; [congruence|].
  destruct (proj2 (last_is_Some (x :: l)) Hne) as [y Hy]. eauto.
Qed.

Section TimelineFacts.

Variable date_parse : string -> option Z.

Lemma time_value_bound raw t :
  time_value date_parse raw = Some t -> Z.abs t <= max_time.
Proof.
  unfold time_value. destruct (date_parse raw) as [t'|]; [|discriminate].
  destruct (Z.leb_spec (Z.abs t') max_time); [|discriminate]. congruence.
Qed.

Lemma getTime_valid raw t :
  time_value date_parse raw = Some t -> getTime date_parse raw = num_of_Z t.
Proof. unfold getTime. now intros ->. Qed.

(** ** [positions] reads the first and the last unique entry *)

Lemma positions_of_eq (uniq : list BlockEntry.t) first last_ :
  head uniq = Some first -> last uniq = Some last_ ->
  positions_of date_parse uniq =
    map (position_of date_parse
           (getTime date_parse (BlockEntry.rawDate first))
           (num_sub (getTime date_parse (BlockEntry.rawDate last_))
                    (getTime date_parse (BlockEntry.rawDate first))))
        uniq.
Proof.
  intros Hh Hl. unfold positions_of.
  rewrite head_lookup in Hh. rewrite last_lookup in Hl.
  replace (length uniq - 1)%nat with (pred (length uniq)) by lia.
  rewrite Hh, Hl. destruct uniq; [discriminate | reflexivity].
Qed.

Lemma length_positions_of (uniq : list BlockEntry.t) :
  length (positions_of date_parse uniq) = length uniq.
Proof.
  destruct (decide (uniq = [])) as [->|Hne]; [reflexivity|].
  destruct (head_last_nonempty uniq Hne) as (first & last_ & Hh & Hl).
  rewrite (positions_of_eq uniq first last_ Hh Hl). apply length_map.
Qed.

(** ** Chronological entries *)

Lemma time_le_spec e1 e2 :
  time_le date_parse e1 e2 <->
  exists t1 t2, time_value date_parse (BlockEntry.rawDate e1) = Some t1 /\
                time_value date_parse (BlockEntry.rawDate e2) = Some t2 /\
                t1 <= t2.
Proof.
  unfold time_le, time_leb. split.
  - destruct (time_value date_parse (BlockEntry.rawDate e1)) as [t1|]; [|discriminate].
    destruct (time_value date_parse (BlockEntry.rawDate e2)) as [t2|]; [|discriminate].
    intros H. apply Z.leb_le in H. eauto.
  - intros (t1 & t2 & -> & -> & H). now apply Z.leb_le.
Qed.

Lemma time_le_trans e1 e2 e3 :
  time_le date_parse e1 e2 -> time_le date_parse e2 e3 -> time_le date_parse e1 e3.
Proof.
  rewrite !time_le_spec.
  intros (t1 & t2 & H1 & H2 & H12) (t2' & t3 & H2' & H3 & H23).
  exists t1, t3. repeat split; try assumption.
  rewrite H2 in H2'. injection H2' as <-. lia.
Qed.

Lemma chronological_sorted entries :
  chronological date_parse entries = true ->
  StronglySorted (time_le date_parse) entries /\
  Forall (fun e => time_le date_parse e e) entries.
Proof.
  induction entries as [|e1 rest IH]; simpl; [split; constructor|].
  intros H. apply andb_true_iff in H as [H Hrest].
  apply andb_true_iff in H as [Hv Hadj].
  destruct (IH Hrest) as [Hs Hf]. split; [|constructor; assumption].
  apply StronglySorted_cons. split; [|assumption].
  destruct rest as [|e2 rest']; [constructor|].
  apply StronglySorted_cons in Hs as [H2 _].
  constructor; [exact Hadj|].
  eapply Forall_impl; [exact H2|]. intros x Hx.
  exact (time_le_trans _ _ _ Hadj Hx).
Qed.

Lemma position_of_in_range first last_ e :
  time_le date_parse first e -> time_le date_parse e last_ ->
  in_percent_range
    (position_of date_parse
       (getTime date_parse (BlockEntry.rawDate first))
       (num_sub (getTime date_parse (BlockEntry.rawDate last_))
                (getTime date_parse (BlockEntry.rawDate first))) e).
Proof.
  rewrite !time_le_spec.
  intros (a & t & Ha & Ht & Hat) (t' & b & Ht' & Hb & Htb).
  rewrite Ht in Ht'. injection Ht' as <-.
  pose proof (time_value_bound _ _ Ha) as Ba.
  pose proof (time_value_bound _ _ Ht) as Bt.
  pose proof (time_value_bound _ _ Hb) as Bb.
  unfold position_of.
  rewrite (getTime_valid _ _ Ha), (getTime_valid _ _ Ht), (getTime_valid _ _ Hb).
  destruct (Z.eq_dec a b) as [->|Hne].
  - rewrite num_sub_diag_of_Z by now apply max_time_lt.
    split; reflexivity.
  - destruct (position_in_range a t b Ba Bt Bb ltac:(lia) ltac:(lia)) as (E & H1 & H2).
    rewrite E. split; assumption.
Qed.

Lemma uniq_between (uniq : list BlockEntry.t) first last_ e :
  StronglySorted (time_le date_parse) uniq ->
  Forall (fun e => time_le date_parse e e) uniq ->
  head uniq = Some first -> last uniq = Some last_ -> e ∈ uniq ->
  time_le date_parse first e /\ time_le date_parse e last_.
Proof.
  intros Hs Hv Hh Hl He. rewrite Forall_forall in Hv. split.
  - destruct uniq as [|x tl]; [discriminate|]. injection Hh as ->.
    apply StronglySorted_cons in Hs as [Hx _]. rewrite Forall_forall in Hx.
    apply elem_of_cons in He as [->|He]; [apply Hv; left | auto].
  - apply last_Some in Hl as [init ->].
    apply elem_of_app in He as [He|He].
    + eapply StronglySorted_app_1_elem_of; [exact Hs | exact He | left].
    + apply list_elem_of_singleton in He as ->. apply Hv.
      apply elem_of_app. right. left.
Qed.

End TimelineFacts.

(** * The scroll handler *)

Lemma getElementById_None document i :
  Forall (fun el => element_id el <> i) document ->
  getElementById document i = None.
Proof.
  intros Hall. unfold getElementById.
  induction document as [|el rest IH]; [reflexivity|].
  apply Forall_cons in Hall as [Hel Hrest]. simpl.
  destruct (String.eqb_spec (element_id el) i); [congruence | auto].
Qed.

(** When the element exists and the scroll area is mounted, the handler
    scrolls that element into view, once. *)
Lemma handleScrollTo_found document area el i :
  getElementById document i = Some el ->
  handleScrollTo document (Some area) i =
    Returned [{| scroll_target := el; scroll_behavior := Smooth;
                 scroll_block := BlockStart |}].
Proof. intros H. unfold handleScrollTo. rewrite H. reflexivity. Qed.

(** * The claims of the specification *)

Section Claims.

Variable date_parse : string -> option Z.

(** C1: when [uniqueDates] is non-empty, with [start] the time of its first
    element and [range] the time of its last element minus [start], the
    position of each element is [0] when [range === 0] and
    [((time - start) / range) * 100] otherwise; so with a zero range every
    position is [0], which is the case when all entries share one display
    date and the time of that entry is valid. *)
Theorem positions_formula entries first last_ :
  head (uniqueDates entries) = Some first ->
  last (uniqueDates entries) = Some last_ ->
  let start := getTime date_parse (BlockEntry.rawDate first) in
  let range := num_sub (getTime date_parse (BlockEntry.rawDate last_)) start in
  (forall index entry,
     uniqueDates entries !! index = Some entry ->
     positions date_parse entries !! index =
       Some (if num_eq range num_zero then num_zero
             else num_mul
                    (num_div
                       (num_sub (getTime date_parse (BlockEntry.rawDate entry))
                                start)
                       range)
                    num_hundred)) /\
  (num_eq range num_zero = true ->
   Forall (fun p => p = num_zero) (positions date_parse entries)) /\
  (Forall (fun e => BlockEntry.date e = BlockEntry.date first) entries ->
   is_Some (time_value date_parse (BlockEntry.rawDate first)) ->
   Forall (fun p => p = num_zero) (positions date_parse entries)).
Proof.
  intros Hh Hl start range. unfold positions.
  rewrite (positions_of_eq date_parse _ _ _ Hh Hl). fold start range.
  assert (Hzero : num_eq range num_zero = true ->
    Forall (fun p => p = num_zero)
           (map (position_of date_parse start range) (uniqueDates entries))).
  { intros Hz. apply Forall_fmap, Forall_forall. intros e _.
    simpl. unfold position_of. now rewrite Hz. }
  split; [|split; [exact Hzero|]].
  - intros index entry Hi. rewrite list_lookup_fmap, Hi. reflexivity.
  - intros Hsame [t Ht]. apply Hzero.
    rewrite (uniqueDates_one_date _ _ Hsame) in Hh, Hl.
    destruct entries as [|e rest]; [discriminate|].
    simpl in Hh, Hl. injection Hh as <-. injection Hl as <-.
    unfold range, start. rewrite (getTime_valid _ _ _ Ht).
    rewrite num_sub_diag_of_Z; [reflexivity|].
    apply max_time_lt. exact (time_value_bound _ _ _ Ht).
Qed.

(** C2: [uniqueDates] is the subsequence of the entries at which a display
    date occurs for the first time, in input order; dates A, B, A, C give
    A, B, C. *)
Theorem uniqueDates_keeps_first_occurrences entries :
  uniqueDates entries = first_occurrences entries /\
  uniqueDates entries `sublist_of` entries /\
  NoDup (BlockEntry.date <$> uniqueDates entries) /\
  BlockEntry.date <$> uniqueDates dates_abac = ["A"; "B"; "C"].
Proof.
  split; [apply uniqueDates_first_occurrences|].
  split; [apply filter_unseen_sublist|].
  split; [apply NoDup_filter_unseen | reflexivity].
Qed.

(** C3 (amended): when the first and the last unique-date entries have
    valid time values that differ, the first position equals [0] and the
    last position is [100]. *)
Theorem first_and_last_positions entries first last_ a b :
  head (uniqueDates entries) = Some first ->
  last (uniqueDates entries) = Some last_ ->
  time_value date_parse (BlockEntry.rawDate first) = Some a ->
  time_value date_parse (BlockEntry.rawDate last_) = Some b ->
  a <> b ->
  exists p0,
    head (positions date_parse entries) = Some p0 /\
    num_eq p0 num_zero = true /\
    last (positions date_parse entries) = Some num_hundred.
Proof.
  intros Hh Hl Ha Hb Hab. unfold positions.
  rewrite (positions_of_eq date_parse _ _ _ Hh Hl).
  pose proof (time_value_bound _ _ _ Ha) as Ba.
  pose proof (time_value_bound _ _ _ Hb) as Bb.
  rewrite (getTime_valid _ _ _ Ha), (getTime_valid _ _ _ Hb).
  destruct (position_first a b Ba Bb Hab) as [Hr H0].
  destruct (position_last a b Ba Bb Hab) as [_ H1].
  eexists. split; [|split].
  - rewrite head_lookup, list_lookup_fmap, <- head_lookup, Hh. reflexivity.
  - unfold position_of. rewrite Hr, (getTime_valid _ _ _ Ha). exact H0.
  - rewrite last_lookup, length_map, list_lookup_fmap, <- last_lookup, Hl. simpl.
    unfold position_of. rewrite Hr, (getTime_valid _ _ _ Hb), H1.
    reflexivity.
Qed.

(** C4: for entries in chronological order of their time values, each of
    them valid, every position lies in the closed interval from [0] to
    [100]. *)
Theorem positions_within_percent_range entries :
  chronological date_parse entries = true ->
  Forall in_percent_range (positions date_parse entries).
Proof.
  intros Hc. destruct (chronological_sorted _ _ Hc) as [Hs Hv].
  pose proof (filter_unseen_StronglySorted _ _ ∅ Hs) as Hs'.
  pose proof (filter_unseen_Forall _ _ ∅ Hv) as Hv'.
  fold (uniqueDates entries) in Hs', Hv'. unfold positions.
  destruct (decide (uniqueDates entries = [])) as [->|Hne]; [constructor|].
  destruct (head_last_nonempty _ Hne) as (first & last_ & Hh & Hl).
  rewrite (positions_of_eq date_parse _ _ _ Hh Hl).
  apply Forall_fmap, Forall_forall. intros e He. simpl.
  destruct (uniq_between _ _ _ _ e Hs' Hv' Hh Hl He) as [H1 H2].
  now apply position_of_in_range.
Qed.

(** C7: the hover state starts as none; entering tick [i] sets it to [i]
    whatever was hovered before, leaving resets it to none, and a tooltip is
    visible exactly when its index is the hovered one, so at most one is. *)
Theorem hover_state_machine entries (hoveredIndex : option nat) (i : nat) :
  (i < length (uniqueDates entries))%nat ->
  initial_hoveredIndex = None /\
  dispatch date_parse entries hoveredIndex (PointerEnter i) = (Some i, []) /\
  dispatch date_parse entries hoveredIndex (PointerLeave i) = (None, []) /\
  (forall k tick,
     render_ticks date_parse entries hoveredIndex !! k = Some tick ->
     tooltip_visible tick = bool_decide (hoveredIndex = Some k)) /\
  (forall k1 k2 t1 t2,
     render_ticks date_parse entries hoveredIndex !! k1 = Some t1 ->
     render_ticks date_parse entries hoveredIndex !! k2 = Some t2 ->
     tooltip_visible t1 = true -> tooltip_visible t2 = true -> k1 = k2).
Proof.
  intros Hi. apply lookup_lt_is_Some_2 in Hi as [entry He].
  assert (Hk : forall k tick,
    render_ticks date_parse entries hoveredIndex !! k = Some tick ->
    tooltip_visible tick = bool_decide (hoveredIndex = Some k)).
  { intros k tick. unfold render_ticks. rewrite list_lookup_imap.
    destruct (uniqueDates entries !! k); [|discriminate].
    simpl. intros [= <-]. reflexivity. }
  split; [reflexivity|]. unfold dispatch, render_ticks.
  rewrite list_lookup_imap, He. simpl.
  split; [reflexivity|]. split; [reflexivity|]. split; [exact Hk|].
  intros k1 k2 t1 t2 H1 H2 V1 V2.
  rewrite (Hk _ _ H1) in V1. rewrite (Hk _ _ H2) in V2.
  apply bool_decide_eq_true in V1, V2. congruence.
Qed.

(** C8: activating the tick of an entry calls [onScrollTo] once, with that
    entry's id and no other, and leaves the hover state and the rendered
    ticks as they were. *)
Theorem activation_calls_scroll_once entries (hoveredIndex : option nat)
    (index : nat) entry :
  uniqueDates entries !! index = Some entry ->
  dispatch date_parse entries hoveredIndex (Activate index)
    = (hoveredIndex, [BlockEntry.id entry]) /\
  render_ticks date_parse entries
    (dispatch date_parse entries hoveredIndex (Activate index)).1
    = render_ticks date_parse entries hoveredIndex.
Proof.
  intros He. unfold dispatch, render_ticks at 1 3.
  rewrite list_lookup_imap, He. simpl. split; reflexivity.
Qed.

(** C10: there are as many positions as unique dates, so every rendered
    tick reads a defined position. *)
Theorem every_tick_has_a_position entries (hoveredIndex : option nat) :
  length (positions date_parse entries) = length (uniqueDates entries) /\
  Forall (fun tick => is_Some (tick_top tick))
         (render_ticks date_parse entries hoveredIndex).
Proof.
  assert (Hlen : length (positions date_parse entries)
                 = length (uniqueDates entries))
    by apply length_positions_of.
  split; [exact Hlen|]. apply Forall_forall. intros tick Ht.
  apply list_elem_of_lookup in Ht as [k Hk].
  unfold render_ticks in Hk. rewrite list_lookup_imap in Hk.
  destruct (uniqueDates entries !! k) eqn:E; [|discriminate].
  simpl in Hk. injection Hk as <-. simpl.
  apply lookup_lt_is_Some_2. apply lookup_lt_Some in E. lia.
Qed.

End Claims.

(** C5: the renderer yields one article per entry, in the order of the
    entries, whatever their dates: nothing is dropped or merged. *)
Theorem renderer_keeps_every_entry entries :
  length (render_articles entries) = length entries /\
  anchor <$> render_articles entries = BlockEntry.id <$> entries /\
  article_date <$> render_articles entries = BlockEntry.date <$> entries /\
  forall i, render_articles entries !! i = render_article <$> entries !! i.
Proof.
  unfold render_articles. split; [apply length_map|].
  split; [|split].
  - induction entries as [|e rest IH]; [reflexivity|]. csimpl. now f_equal.
  - induction entries as [|e rest IH]; [reflexivity|]. csimpl. now f_equal.
  - intros i. apply list_lookup_fmap.
Qed.

(** C9: when no element of the document carries the id, [handleScrollTo]
    returns without any scroll command; it does not throw. *)
Theorem scroll_to_missing_is_noop document scrollRef_current i :
  Forall (fun el => element_id el <> i) document ->
  handleScrollTo document scrollRef_current i = Returned [].
Proof.
  intros Hall. unfold handleScrollTo.
  rewrite (getElementById_None _ _ Hall). reflexivity.
Qed.

(** C6 (amended): the four example entries have three unique dates, and
    their positions are [0], [49.7] to one decimal place (the number nearest
    to 49.72677595628415), and [100]. *)
Theorem journey_2024_positions :
  length (uniqueDates journey_2024) = 3%nat /\
  positions IsoDate.parse journey_2024 =
    [num_zero; S754_finite false 6998421552095545 (-47); num_hundred] /\
  Forall2 (fun p t => approx_tenths p t = true)
          (positions IsoDate.parse journey_2024) [0; 497; 1000].
Proof.
  split; [reflexivity|]. split; [vm_compute; reflexivity|].
  repeat constructor.
Qed.

(** C6, as stated: the middle position is not [49.6] to one decimal place. *)
Lemma journey_2024_middle_is_not_49_6 :
  positions IsoDate.parse journey_2024 !! 1%nat
    = Some (S754_finite false 6998421552095545 (-47)) /\
  approx_tenths (S754_finite false 6998421552095545 (-47)) 496 = false.
Proof. split; vm_compute; reflexivity. Qed.

(** C3, as stated: two entries with distinct display dates and one instant
    have their last position at [0], not at [100]. *)
Lemma same_instant_last_position :
  length (uniqueDates same_instant) = 2%nat /\
  NoDup (BlockEntry.date <$> same_instant) /\
  last (positions IsoDate.parse same_instant) = Some num_zero /\
  last (positions IsoDate.parse same_instant) <> Some num_hundred.
Proof.
  split; [reflexivity|]. split.
  - apply NoDup_ListNoDup. repeat constructor; simpl; intuition discriminate.
  - split; [vm_compute; reflexivity | vm_compute; discriminate].
Qed.

(** * Instances on the worked examples *)

Lemma positions_formula_witness :
  positions IsoDate.parse journey_2024 !! 1%nat
    = Some (S754_finite false 6998421552095545 (-47)).
Proof.
  destruct (positions_formula IsoDate.parse journey_2024
              (example_entry "e1" "2024.01.01" "2024-01-01")
              (example_entry "e4" "2025.01.01" "2025-01-01")
              eq_refl eq_refl) as [H _].
  exact (H 1%nat (example_entry "e3" "2024.07.01" "2024-07-01") eq_refl).
Defined.

Lemma first_and_last_positions_witness :
  exists p0,
    head (positions IsoDate.parse journey_2024) = Some p0 /\
    num_eq p0 num_zero = true /\
    last (positions IsoDate.parse journey_2024) = Some num_hundred.
Proof.
  apply (first_and_last_positions IsoDate.parse journey_2024
           (example_entry "e1" "2024.01.01" "2024-01-01")
           (example_entry "e4" "2025.01.01" "2025-01-01")
           1704067200000 1735689600000); try reflexivity.
  lia.
Defined.

Lemma positions_within_percent_range_witness :
  Forall in_percent_range (positions IsoDate.parse journey_2024).
Proof.
  apply positions_within_percent_range. reflexivity.
Defined.

Lemma hover_state_machine_witness :
  dispatch IsoDate.parse journey_2024 (Some 0%nat) (PointerEnter 2)
    = (Some 2%nat, []).
Proof.
  refine (proj1 (proj2 (hover_state_machine IsoDate.parse journey_2024
                          (Some 0%nat) 2 _))).
  vm_compute. lia.
Defined.

Lemma activation_calls_scroll_once_witness :
  dispatch IsoDate.parse journey_2024 None (Activate 1) = (None, ["e3"]).
Proof.
  exact (proj1 (activation_calls_scroll_once IsoDate.parse journey_2024 None 1
                  (example_entry "e3" "2024.07.01" "2024-07-01") eq_refl)).
Defined.

Lemma scroll_to_missing_is_noop_witness :
  handleScrollTo host_document (Some {| element_id := "root" |}) "e7"
    = Returned [].
Proof.
  apply scroll_to_missing_is_noop. repeat constructor; simpl; discriminate.
Defined.

(** * Further properties of the code *)

(** ** Rounding to the nearest number *)

Lemma F2R_midpoint m e :
  F2R (2 * m + 1) (e - 1) = ((F2R m e + F2R (m + 1) e) / 2)%R.
Proof.
  unfold F2R. rewrite bpow_pred, !plus_IZR, mult_IZR. lra.
Qed.

Lemma normal_gap_cases m e mf ef :
  normal_mantissa m -> normal_mantissa mf ->
  (F2R mf ef <= F2R m e)%R \/ (F2R (m + 1) e <= F2R mf ef)%R.
Proof.
  intros Hm Hf. destruct (normal_gap m e mf ef Hm Hf) as [G1 _].
  destruct (Rle_or_lt (F2R mf ef) (F2R m e)); [left; assumption|].
  right. now apply G1.
Qed.

Lemma round_nearest_even_nearest m e l x mf ef :
  normal_mantissa m -> normal_mantissa mf -> inbetween m e l x ->
  (Rabs (F2R (round_nearest_even m l) e - x) <= Rabs (F2R mf ef - x))%R.
Proof.
  intros Hm Hf Hin.
  pose proof (F2R_lt m (m + 1) e ltac:(lia)) as Hstep.
  pose proof (F2R_midpoint m e) as Hmid.
  destruct (normal_gap_cases m e mf ef Hm Hf) as [Hlo|Hhi];
    destruct l as [|c]; unfold inbetween in Hin; unfold round_nearest_even.
  - subst x. rewrite Rminus_diag, Rabs_R0. apply Rabs_pos.
  - destruct Hin as [[H1 H2] Hc]. rewrite Hmid in Hc.
    assert (HF : Rabs (F2R mf ef - x) = (x - F2R mf ef)%R)
      by (rewrite Rabs_left1; lra).
    rewrite HF. clear HF.
    destruct c; [destruct (Z.even m)| |];
      (rewrite Rabs_left1 by lra) || (rewrite Rabs_right by lra); lra.
  - subst x. rewrite Rminus_diag, Rabs_R0. apply Rabs_pos.
  - destruct Hin as [[H1 H2] Hc]. rewrite Hmid in Hc.
    assert (HF : Rabs (F2R mf ef - x) = (F2R mf ef - x)%R)
      by (rewrite Rabs_right; lra).
    rewrite HF. clear HF.
    destruct c; [destruct (Z.even m)| |];
      (rewrite Rabs_left1 by lra) || (rewrite Rabs_right by lra); lra.
Qed.

Lemma binary_round_aux_nearest s p e l x :
  53 <= Zpos (digits2_pos p) ->
  (bpow (-1022) <= x < bpow 1023)%R ->
  inbetween (Zpos p) e l x ->
  exists mR eR,
    binary_round_aux prec emax s (Zpos p) e l = S754_finite s mR eR /\
    is_nearest x mR eR.
Proof.
  intros Hd [Hlo Hhi] Hx.
  pose proof (digits_value_bounds p e) as [B1 B2]. cbv zeta in B1, B2.
  assert (Hb : (F2R (Zpos p) e <= x < F2R (Zpos p + 1) e)%R).
  { pose proof (F2R_lt (Zpos p) (Zpos p + 1) e ltac:(lia)).
    destruct l; unfold inbetween in Hx; [subst x|]; lra. }
  assert (Hup : (F2R (Zpos p + 1) e <= bpow (Zpos (digits2_pos p) + e))%R).
  { pose proof (digits2_bounds p) as [_ H2].
    rewrite bpow_add, (bpow_nonneg_IZR (Zpos (digits2_pos p))) by lia.
    apply (F2R_le _ _ e). lia. }
  assert (Hmin : -1022 < Zpos (digits2_pos p) + e) by (apply bpow_lt_inv; lra).
  assert (Hmax : Zpos (digits2_pos p) + e - 1 < 1023) by (apply bpow_lt_inv; lra).
  clear B1 B2 Hb Hup Hlo Hhi.
  unfold binary_round_aux.
  destruct (shr_fexp_normal p e l x Hd ltac:(lia) Hx) as (mrs & -> & Hn & Hin).
  remember (e + Zpos (digits2_pos p) - 53) as e' eqn:Ee'.
  remember (shr_m mrs) as m' eqn:Em'.
  remember (round_nearest_even m' (loc_of_shr_record mrs)) as m1 eqn:Em1.
  assert (Hm1 : m1 = m' \/ m1 = m' + 1).
  { subst m1. unfold round_nearest_even.
    destruct (loc_of_shr_record mrs) as [|[]]; auto. destruct (Z.even m'); auto. }
  assert (Hnear : forall mf ef, normal_mantissa mf ->
    (Rabs (F2R m1 e' - x) <= Rabs (F2R mf ef - x))%R).
  { intros mf ef Hf. subst m1. now apply round_nearest_even_nearest. }
  clear Em1 Hin Hx. unfold normal_mantissa in Hn.
  assert (Hcases : m1 < 2 ^ 53 \/ m1 = 2 ^ 53) by (clear -Hn Hm1; lia).
  destruct Hcases as [Hlt | ->].
  - destruct m1 as [|p1|p1]; try (clear -Hn Hm1 Hlt; lia).
    assert (Hd1 : Zpos (digits2_pos p1) = 53)
      by (apply digits2_unique; clear -Hn Hm1 Hlt; lia).
    unfold shr_fexp. simpl Zdigits2. rewrite Hd1.
    rewrite fexp_normal by lia.
    replace (53 + e' - 53 - e') with 0 by lia. simpl.
    exists p1, e'.
    assert (Hle : (e' <=? emax - prec) = true)
      by (apply Z.leb_le; unfold emax, prec; lia).
    rewrite Hle. split; [reflexivity|].
    split; [unfold normal_mantissa; clear -Hn Hm1 Hlt; lia | exact Hnear].
  - unfold shr_fexp. change (Zdigits2 (2 ^ 53)) with 54.
    rewrite fexp_normal by lia.
    replace (54 + e' - 53 - e') with 1 by lia. simpl.
    exists (2 ^ 52)%positive, (e' + 1).
    assert (Hle : (e' + 1 <=? emax - prec) = true)
      by (apply Z.leb_le; unfold emax, prec; lia).
    rewrite Hle. split; [reflexivity|].
    split; [unfold normal_mantissa; simpl; lia|].
    assert (E : F2R (Zpos (2 ^ 52)) (e' + 1) = F2R (2 ^ 53) e').
    { rewrite <- (F2R_shift _ (e' + 1) 1) by lia.
      replace (e' + 1 - 1) with e' by lia. reflexivity. }
    rewrite E. exact Hnear.
Qed.

Lemma num_div_nearest sx mx ex sy my ey :
  normal_mantissa (Zpos mx) -> normal_mantissa (Zpos my) ->
  -1021 <= ex - ey ->
  let X := (F2R (Zpos mx) ex / F2R (Zpos my) ey)%R in
  (bpow (-1022) <= X < bpow 1023)%R ->
  exists m e,
    num_div (S754_finite sx mx ex) (S754_finite sy my ey)
      = S754_finite (xorb sx sy) m e /\
    is_nearest X m e.
Proof.
  intros Hx Hy He X HX. unfold num_div, SFdiv, SFdiv_core_binary.
  pose proof (proj1 (normal_mantissa_digits mx) Hx) as Dx.
  pose proof (proj1 (normal_mantissa_digits my) Hy) as Dy.
  simpl Zdigits2. rewrite Dx, Dy.
  rewrite fexp_normal by lia.
  replace (Z.min (53 + ex - (53 + ey) - 53) (ex - ey)) with (ex - ey - 53) by lia.
  replace (ex - ey - (ex - ey - 53)) with 53 by lia.
  cbv iota beta. rewrite Z.shiftl_mul_pow2 by lia.
  pose proof (Z_div_mod (Zpos mx * 2 ^ 53) (Zpos my) ltac:(lia)) as Hdiv.
  destruct (Z.div_eucl (Zpos mx * 2 ^ 53) (Zpos my)) as [q r].
  destruct Hdiv as [Hq Hr]. unfold normal_mantissa in Hx, Hy.
  assert (Hqb : 2 ^ 52 <= q < 2 ^ 54) by (change (2 ^ 52) with 4503599627370496 in *;
    change (2 ^ 53) with 9007199254740992 in *;
    change (2 ^ 54) with 18014398509481984; nia).
  destruct q as [|pq|pq]; try lia.
  assert (Hdq : 53 <= Zpos (digits2_pos pq)).
  { pose proof (digits2_bounds pq) as [_ D2].
    destruct (Z.le_gt_cases 53 (Zpos (digits2_pos pq))); [assumption|].
    assert (2 ^ Zpos (digits2_pos pq) <= 2 ^ 52) by (apply Z.pow_le_mono_r; lia).
    lia. }
  assert (EX : X = ((IZR (Zpos pq) + IZR r / IZR (Zpos my)) * bpow (ex - ey - 53))%R).
  { unfold X, F2R.
    assert (Hmy : (0 < IZR (Zpos my))%R) by (apply IZR_lt; lia).
    pose proof (bpow_gt_0 ey) as Hey.
    apply (f_equal IZR) in Hq. rewrite plus_IZR, !mult_IZR in Hq.
    rewrite <- bpow_nonneg_IZR in Hq by lia.
    replace ex with ((ex - ey - 53) + 53 + ey) at 1 by lia.
    rewrite !bpow_add.
    field_simplify_eq; [|lra]. nra. }
  rewrite EX in HX |- *.
  apply binary_round_aux_nearest; try assumption.
  apply new_location_inbetween. exact Hr.
Qed.

Lemma num_mul_nearest sx mx ex sy my ey :
  normal_mantissa (Zpos mx) -> normal_mantissa (Zpos my) ->
  let X := (F2R (Zpos mx) ex * F2R (Zpos my) ey)%R in
  (bpow (-1022) <= X < bpow 1023)%R ->
  exists m e,
    num_mul (S754_finite sx mx ex) (S754_finite sy my ey)
      = S754_finite (xorb sx sy) m e /\
    is_nearest X m e.
Proof.
  intros Hx Hy X HX. unfold num_mul, SFmul.
  assert (EX : X = F2R (Zpos (mx * my)) (ex + ey)).
  { unfold X, F2R. rewrite Pos2Z.inj_mul, mult_IZR, bpow_add. lra. }
  rewrite EX in HX |- *.
  apply binary_round_aux_nearest; try assumption; [|reflexivity].
  pose proof (digits2_bounds (mx * my)) as [_ D2].
  unfold normal_mantissa in Hx, Hy. rewrite Pos2Z.inj_mul in D2.
  destruct (Z.le_gt_cases 53 (Zpos (digits2_pos (mx * my)))); [assumption|].
  assert (2 ^ Zpos (digits2_pos (mx * my)) <= 2 ^ 52) by (apply Z.pow_le_mono_r; lia).
  change (2 ^ 52) with 4503599627370496 in *. nia.
Qed.

(** Rounding to nearest is monotone on distinct reals. *)
Lemma is_nearest_monotone x m e y m' e' :
  is_nearest x m e -> is_nearest y m' e' -> (x < y)%R ->
  (F2R (Zpos m) e <= F2R (Zpos m') e')%R.
Proof.
  intros [Nm Hx] [Nm' Hy] Hlt.
  specialize (Hx _ e' Nm'). specialize (Hy _ e Nm).
  destruct (Rle_or_lt (F2R (Zpos m) e) (F2R (Zpos m') e')) as [|Hgt]; [assumption|].
  exfalso. unfold Rabs in Hx, Hy.
  repeat destruct Rcase_abs in Hx; repeat destruct Rcase_abs in Hy; lra.
Qed.

(** A value has one normal representation. *)
Lemma normal_value_inj m1 e1 m2 e2 :
  normal_mantissa m1 -> normal_mantissa m2 ->
  F2R m1 e1 = F2R m2 e2 -> m1 = m2 /\ e1 = e2.
Proof.
  intros H1 H2 E.
  destruct (Z.lt_trichotomy e1 e2) as [Hlt|[->|Hgt]].
  - pose proof (normal_lt_exp _ _ _ _ H2 H1 Hlt). lra.
  - split; [|reflexivity]. apply Z.le_antisymm; apply (F2R_le_inv _ _ e2); lra.
  - pose proof (normal_lt_exp _ _ _ _ H1 H2 Hgt). lra.
Qed.

(** The steps of the position formula for a time value after the start. *)
Lemma position_trace a t b :
  Z.abs a <= max_time -> Z.abs t <= max_time -> Z.abs b <= max_time ->
  a < t -> a < b ->
  exists md ed mr er mq eq mp ep,
    num_sub (num_of_Z t) (num_of_Z a) = S754_finite false md ed /\
    is_round (IZR (t - a)) md ed /\
    num_sub (num_of_Z b) (num_of_Z a) = S754_finite false mr er /\
    normal_mantissa (Zpos mr) /\
    (0 < F2R (Zpos mr) er)%R /\
    num_div (S754_finite false md ed) (S754_finite false mr er)
      = S754_finite false mq eq /\
    is_nearest (F2R (Zpos md) ed / F2R (Zpos mr) er) mq eq /\
    num_mul (S754_finite false mq eq) num_hundred = S754_finite false mp ep /\
    is_nearest (F2R (Zpos mq) eq * 100) mp ep.
Proof.
  unfold max_time. intros Ha Ht Hb Hat Hab.
  assert (Hp : 8640000000000000 < 2 ^ 53) by reflexivity.
  destruct (num_sub_of_Z b a ltac:(lia) ltac:(lia)) as [_ Hr].
  destruct (Hr ltac:(lia)) as (mr & er & Er & _ & Rr). clear Hr.
  replace (b <? a) with false in Er by (symmetry; apply Z.ltb_ge; lia).
  destruct (num_sub_of_Z t a ltac:(lia) ltac:(lia)) as [_ Hd].
  destruct (Hd ltac:(lia)) as (md & ed & Ed & _ & Rd). clear Hd.
  replace (t <? a) with false in Ed by (symmetry; apply Z.ltb_ge; lia).
  rewrite Z.abs_eq in Rr, Rd by lia.
  assert (Hone : forall n m e, 0 < n -> n <= 2 * 8640000000000000 ->
    is_round (IZR n) m e -> (bpow 0 <= F2R (Zpos m) e <= bpow 54)%R).
  { intros n m e Hn0 Hn1 Rn. split.
    - apply (is_round_ge_bpow _ _ _ 0 Rn). change (bpow 0) with (IZR 1).
      apply IZR_le. lia.
    - apply (is_round_le_bpow _ _ _ 54 Rn). rewrite bpow_nonneg_IZR by lia.
      apply IZR_le. change (2 ^ 54) with 18014398509481984. lia. }
  destruct (Hone (t - a) md ed ltac:(lia) ltac:(lia) Rd) as [HD1 HD2].
  destruct (Hone (b - a) mr er ltac:(lia) ltac:(lia) Rr) as [HG1 HG2].
  clear Hone.
  pose proof Rd as [Nd _]. pose proof Rr as [Nr _].
  clear Hp.
  destruct (normal_exp_bounds (Zpos md) ed 0 54 Nd ltac:(lra)) as [Ed1 Ed2].
  destruct (normal_exp_bounds (Zpos mr) er 0 54 Nr ltac:(lra)) as [Er1 Er2].
  assert (HG0 : (0 < F2R (Zpos mr) er)%R) by (pose proof (bpow_gt_0 0); lra).
  assert (HX1 : (F2R (Zpos md) ed / F2R (Zpos mr) er <= bpow 54)%R).
  { apply Rmult_le_reg_r with (F2R (Zpos mr) er); [assumption|].
    unfold Rdiv. rewrite Rmult_assoc, Rinv_l by lra.
    pose proof (bpow_gt_0 54). change (bpow 0) with 1%R in *. nra. }
  assert (HX2 : (bpow (-54) <= F2R (Zpos md) ed / F2R (Zpos mr) er)%R).
  { apply Rmult_le_reg_r with (F2R (Zpos mr) er); [assumption|].
    unfold Rdiv at 1. rewrite Rmult_assoc, Rinv_l by lra.
    apply Rle_trans with (bpow (-54) * bpow 54)%R.
    - apply Rmult_le_compat_l; [left; apply bpow_gt_0 | assumption].
    - rewrite <- bpow_add. change (bpow (-54 + 54)) with (bpow 0). lra. }
  assert (HXr : (bpow (-1022) <= F2R (Zpos md) ed / F2R (Zpos mr) er < bpow 1023)%R).
  { split.
    - apply Rle_trans with (bpow (-54)); [apply bpow_le; lia | assumption].
    - apply Rle_lt_trans with (bpow 54); [assumption | apply bpow_lt; lia]. }
  destruct (num_div_normal false md ed false mr er Nd Nr ltac:(lia) HXr)
    as (mq & eq & Eq & _ & Rq).
  destruct (num_div_nearest false md ed false mr er Nd Nr ltac:(lia) HXr)
    as (mq' & eq' & Eq' & Nq).
  rewrite Eq in Eq'. injection Eq' as <- <-. simpl xorb in Eq.
  pose proof (is_round_le_bpow _ _ _ 54 Rq HX1) as HQ1.
  pose proof (is_round_ge_bpow _ _ _ (-54) Rq HX2) as HQ2.
  destruct Rq as [Nmq _].
  assert (HPr : (bpow (-1022)
                 <= F2R (Zpos mq) eq * F2R (Zpos 7036874417766400) (-46)
                 < bpow 1023)%R).
  { rewrite hundred_value. split.
    - apply Rle_trans with (bpow (-54)); [apply bpow_le; lia|].
      pose proof (bpow_gt_0 (-54)). lra.
    - apply Rle_lt_trans with (bpow 54 * bpow 7)%R;
        [|rewrite <- bpow_add; apply bpow_lt; lia].
      rewrite (bpow_nonneg_IZR 7) by lia. change (2 ^ 7) with 128.
      pose proof (bpow_gt_0 54). lra. }
  destruct (num_mul_nearest false mq eq false 7036874417766400 (-46)
              Nmq hundred_normal HPr) as (mp & ep & Ep & Np).
  rewrite hundred_value in Np. simpl xorb in Ep.
  exists md, ed, mr, er, mq, eq, mp, ep.
  split; [exact Ed|]. split; [exact Rd|]. split; [exact Er|].
  split; [exact Nr|]. split; [exact HG0|]. split; [exact Eq|].
  split; [exact Nq|]. split; [exact Ep | exact Np].
Qed.

Lemma position_monotone a t1 t2 b :
  Z.abs a <= max_time -> Z.abs t1 <= max_time ->
  Z.abs t2 <= max_time -> Z.abs b <= max_time ->
  a <= t1 -> t1 <= t2 -> a < b ->
  let start := num_of_Z a in
  let range := num_sub (num_of_Z b) start in
  num_le (num_mul (num_div (num_sub (num_of_Z t1) start) range) num_hundred)
         (num_mul (num_div (num_sub (num_of_Z t2) start) range) num_hundred)
    = true.
Proof.
  intros Ha H1 H2 Hb Hat1 H12 Hab. cbv zeta.
  destruct (Z.eq_dec t1 a) as [->|Hne].
  - rewrite (num_sub_diag_of_Z a (max_time_lt a Ha)).
    destruct (Z.eq_dec t2 a) as [->|Hne2].
    + rewrite (num_sub_diag_of_Z a (max_time_lt a Ha)).
      destruct (num_sub_of_Z b a (max_time_lt b Hb) (max_time_lt a Ha)) as [_ Hr].
      destruct (Hr ltac:(lia)) as (mr & er & Er & _). rewrite Er.
      destruct (b <? a); reflexivity.
    + destruct (position_trace a t2 b Ha H2 Hb ltac:(lia) Hab)
        as (md2 & ed2 & mr & er & mq2 & eq2 & mp2 & ep2
            & Ed2 & _ & Er & _ & _ & Eq2 & _ & Ep2 & _).
      rewrite Ed2, Er, Eq2, Ep2. reflexivity.
  - destruct (position_trace a t1 b Ha H1 Hb ltac:(lia) Hab)
      as (md1 & ed1 & mr & er & mq1 & eq1 & mp1 & ep1
          & Ed1 & Rd1 & Er & Nr & Gpos & Eq1 & Nq1 & Ep1 & Np1).
    destruct (position_trace a t2 b Ha H2 Hb ltac:(lia) Hab)
      as (md2 & ed2 & mr' & er' & mq2 & eq2 & mp2 & ep2
          & Ed2 & Rd2 & Er' & _ & _ & Eq2 & Nq2 & Ep2 & Np2).
    rewrite Er in Er'. injection Er' as <- <-.
    rewrite Ed1, Ed2, Er, Eq1, Eq2, Ep1, Ep2.
    apply SFleb_normal; [apply Np1 | apply Np2 |].
    assert (HD : (F2R (Zpos md1) ed1 <= F2R (Zpos md2) ed2)%R).
    { destruct (Z.eq_dec t1 t2) as [->|Ht].
      - rewrite Ed1 in Ed2. injection Ed2 as <- <-. lra.
      - destruct (int_between (t1 - a) (t2 - a)) as (mf & ef & Hf & Hbt); [lia| |].
        { unfold max_time in *. change (2 ^ 54) with 18014398509481984. lia. }
        exact (is_round_monotone _ _ _ _ _ _ _ _ Rd1 Rd2 Hf Hbt). }
    assert (HQ : (F2R (Zpos mq1) eq1 <= F2R (Zpos mq2) eq2)%R).
    { destruct HD as [Hlt|Heq].
      - apply (is_nearest_monotone _ _ _ _ _ _ Nq1 Nq2).
        unfold Rdiv. apply Rmult_lt_compat_r; [|assumption].
        now apply Rinv_0_lt_compat.
      - destruct (normal_value_inj _ _ _ _ (proj1 Rd1) (proj1 Rd2) Heq) as [Em ->].
        injection Em as ->. rewrite Eq1 in Eq2. injection Eq2 as <- <-. lra. }
    destruct HQ as [Hlt|Heq].
    + apply (is_nearest_monotone _ _ _ _ _ _ Np1 Np2). lra.
    + destruct (normal_value_inj _ _ _ _ (proj1 Nq1) (proj1 Nq2) Heq) as [Em ->].
      injection Em as ->. rewrite Ep1 in Ep2. injection Ep2 as <- <-. lra.
Qed.

(** * More about [uniqueDates] *)

Lemma filter_unseen_dates entries : forall seen,
  list_to_set (BlockEntry.date <$> filter_unseen seen entries) ∪ seen
  = (list_to_set (BlockEntry.date <$> entries) ∪ seen : gset string).
Proof.
  induction entries as [|e rest IH]; intros seen; [reflexivity|].
  simpl filter_unseen. rewrite fmap_cons, list_to_set_cons.
  destruct (decide _) as [Hin|Hnin].
  - rewrite IH. set_solver.
  - rewrite fmap_cons, list_to_set_cons.
    specialize (IH ({[BlockEntry.date e]} ∪ seen)).
    set (A := list_to_set (BlockEntry.date <$> filter_unseen _ rest) : gset string) in *.
    set (B := list_to_set (BlockEntry.date <$> rest) : gset string) in *.
    clearbody A B.
    replace ({[BlockEntry.date e]} ∪ A ∪ seen)
      with (A ∪ ({[BlockEntry.date e]} ∪ seen)) by set_solver.
    replace ({[BlockEntry.date e]} ∪ B ∪ seen)
      with (B ∪ ({[BlockEntry.date e]} ∪ seen)) by set_solver.
    exact IH.
Qed.

Lemma filter_unseen_fixed entries : forall seen,
  NoDup (BlockEntry.date <$> entries) ->
  Forall (fun e => BlockEntry.date e ∉ seen) entries ->
  filter_unseen seen entries = entries.
Proof.
  induction entries as [|e rest IH]; intros seen Hnd Hall; [reflexivity|].
  rewrite fmap_cons in Hnd. apply NoDup_cons in Hnd as [Hne Hnd].
  apply Forall_cons in Hall as [He Hr]. simpl.
  rewrite decide_False by assumption. f_equal. apply IH; [assumption|].
  apply Forall_forall. intros x Hx. rewrite Forall_forall in Hr.
  specialize (Hr x Hx).
  assert (BlockEntry.date x <> BlockEntry.date e).
  { intros E. apply Hne. rewrite <- E. apply list_elem_of_fmap. eauto. }
  set_solver.
Qed.

Lemma filter_unseen_app xs : forall seen ys,
  filter_unseen seen (xs ++ ys)
  = filter_unseen seen xs
      ++ filter_unseen (list_to_set (BlockEntry.date <$> xs) ∪ seen) ys.
Proof.
  induction xs as [|e rest IH]; intros seen ys; simpl.
  - f_equal. set_solver.
  - destruct (decide _) as [Hin|Hnin].
    + rewrite IH. f_equal. f_equal. set_solver.
    + simpl. f_equal. rewrite IH. f_equal. f_equal. set_solver.
Qed.

Lemma filter_unseen_union (S : gset string) ys : forall T,
  filter_unseen (S ∪ T) ys
  = filter (fun e => BlockEntry.date e ∉ S) (filter_unseen T ys).
Proof.
  induction ys as [|e rest IH]; intros T; [reflexivity|]. simpl.
  destruct (decide (BlockEntry.date e ∈ T)) as [HT|HT].
  - rewrite decide_True by set_solver. apply IH.
  - destruct (decide (BlockEntry.date e ∈ S)) as [HS|HS].
    + rewrite decide_True by set_solver.
      rewrite filter_cons_False by (simpl; tauto).
      rewrite <- IH. f_equal. set_solver.
    + rewrite decide_False by set_solver.
      rewrite filter_cons_True by assumption. f_equal.
      rewrite <- IH. f_equal. set_solver.
Qed.

(** X1: the unique dates are the distinct display dates: the same set of
    dates, and as many unique entries as there are distinct dates. *)
Theorem uniqueDates_distinct_dates entries :
  list_to_set (BlockEntry.date <$> uniqueDates entries)
    = (list_to_set (BlockEntry.date <$> entries) : gset string) /\
  length (uniqueDates entries)
    = size (list_to_set (BlockEntry.date <$> entries) : gset string).
Proof.
  assert (E : list_to_set (BlockEntry.date <$> uniqueDates entries)
              = (list_to_set (BlockEntry.date <$> entries) : gset string)).
  { pose proof (filter_unseen_dates entries ∅) as H.
    unfold uniqueDates. set_solver. }
  split; [exact E|]. rewrite <- E.
  rewrite size_list_to_set by apply NoDup_filter_unseen.
  now rewrite length_fmap.
Qed.

Lemma uniqueDates_fixed l :
  NoDup (BlockEntry.date <$> l) -> uniqueDates l = l.
Proof.
  intros Hl. apply filter_unseen_fixed; [assumption|].
  apply Forall_forall. intros x _. set_solver.
Qed.

(** X2: deduplication is idempotent, and leaves a list without repeated
    dates as it is. *)
Theorem uniqueDates_idempotent entries :
  uniqueDates (uniqueDates entries) = uniqueDates entries /\
  (NoDup (BlockEntry.date <$> entries) -> uniqueDates entries = entries).
Proof.
  split; [|apply uniqueDates_fixed].
  apply uniqueDates_fixed, NoDup_filter_unseen.
Qed.

(** X3: entries added at the end keep the ticks that were there, in place;
    the new ticks are the unique dates of the addition not shown before. *)
Theorem uniqueDates_app xs ys :
  uniqueDates (xs ++ ys)
  = uniqueDates xs
      ++ filter (fun e => BlockEntry.date e
                            ∉ (list_to_set (BlockEntry.date <$> xs) : gset string))
                (uniqueDates ys).
Proof.
  unfold uniqueDates. rewrite filter_unseen_app. f_equal.
  apply filter_unseen_union.
Qed.

Section MoreTimeline.

Variable date_parse : string -> option Z.

(** X4: the navigator does not depend on the entries that [uniqueDates]
    drops: rendered from the unique entries alone, the ticks are the same. *)
Theorem navigator_ignores_duplicates entries hoveredIndex :
  render_ticks date_parse (uniqueDates entries) hoveredIndex
    = render_ticks date_parse entries hoveredIndex /\
  positions date_parse (uniqueDates entries) = positions date_parse entries.
Proof.
  unfold render_ticks, positions.
  rewrite (uniqueDates_fixed (uniqueDates entries))
    by apply NoDup_filter_unseen.
  split; reflexivity.
Qed.

(** X5: unique entry ids give unique React keys. *)
Theorem tick_keys_unique entries hoveredIndex :
  NoDup (BlockEntry.id <$> entries) ->
  NoDup (tick_key <$> render_ticks date_parse entries hoveredIndex).
Proof.
  intros Hnd.
  assert (E : tick_key <$> render_ticks date_parse entries hoveredIndex
              = BlockEntry.id <$> uniqueDates entries).
  { unfold render_ticks. apply list_eq. intros i.
    rewrite !list_lookup_fmap, list_lookup_imap.
    destruct (uniqueDates entries !! i); reflexivity. }
  rewrite E. eapply sublist_NoDup; [exact Hnd|].
  apply fmap_sublist, filter_unseen_sublist.
Qed.

(** X6: an unparseable time at the first or at the last unique entry makes
    every position NaN. *)
Theorem invalid_endpoint_makes_NaN entries first last_ :
  head (uniqueDates entries) = Some first ->
  last (uniqueDates entries) = Some last_ ->
  time_value date_parse (BlockEntry.rawDate first) = None \/
  time_value date_parse (BlockEntry.rawDate last_) = None ->
  Forall (fun p => p = S754_nan) (positions date_parse entries).
Proof.
  intros Hh Hl Hinv. unfold positions.
  rewrite (positions_of_eq date_parse _ _ _ Hh Hl).
  apply Forall_fmap, Forall_forall. intros e _. simpl.
  unfold position_of, getTime.
  destruct Hinv as [-> | ->].
  - assert (E : forall x, num_sub x S754_nan = S754_nan) by (intros []; reflexivity).
    rewrite !E. reflexivity.
  - simpl. 
    destruct (num_sub _ _) as [| | |]; reflexivity.
Qed.

Lemma StronglySorted_map_in {A B} (R : relation A) (R' : relation B)
    (f : A -> B) (l : list A) :
  StronglySorted R l ->
  (forall x y, x ∈ l -> y ∈ l -> R x y -> R' (f x) (f y)) ->
  StronglySorted R' (map f l).
Proof.
  induction 1 as [|x l Hs IH Hx]; intros Hf; simpl; [constructor|].
  constructor.
  - apply IH. intros a b Ha Hb. apply Hf; now right.
  - apply Forall_fmap, Forall_forall. intros y Hy. simpl.
    rewrite Forall_forall in Hx. apply Hf; [left | now right | now apply Hx].
Qed.

(** X7: for chronological entries the positions never decrease from one
    tick to the next: the ticks keep the order of the entries. *)
Theorem positions_nondecreasing entries :
  chronological date_parse entries = true ->
  StronglySorted num_leb_rel (positions date_parse entries).
Proof.
  intros Hc. destruct (chronological_sorted _ _ Hc) as [Hs Hv].
  pose proof (filter_unseen_StronglySorted _ _ ∅ Hs) as Hs'.
  pose proof (filter_unseen_Forall _ _ ∅ Hv) as Hv'.
  fold (uniqueDates entries) in Hs', Hv'. unfold positions.
  destruct (decide (uniqueDates entries = [])) as [->|Hne]; [constructor|].
  destruct (head_last_nonempty _ Hne) as (first & last_ & Hh & Hl).
  rewrite (positions_of_eq date_parse _ _ _ Hh Hl).
  apply (StronglySorted_map_in _ _ _ _ Hs').
  intros x y Hx Hy Hxy. unfold num_leb_rel.
  destruct (uniq_between _ _ _ _ x Hs' Hv' Hh Hl Hx) as [Hax _].
  destruct (uniq_between _ _ _ _ y Hs' Hv' Hh Hl Hy) as [_ Hyb].
  apply time_le_spec in Hax as (a & t1 & Ha & Ht1 & Hle1).
  apply time_le_spec in Hyb as (t2 & b & Ht2 & Hb & Hle2).
  apply time_le_spec in Hxy as (t1' & t2' & Ht1' & Ht2' & Hle).
  rewrite Ht1 in Ht1'. injection Ht1' as <-.
  rewrite Ht2 in Ht2'. injection Ht2' as <-.
  pose proof (time_value_bound _ _ _ Ha) as Ba.
  pose proof (time_value_bound _ _ _ Ht1) as B1.
  pose proof (time_value_bound _ _ _ Ht2) as B2.
  pose proof (time_value_bound _ _ _ Hb) as Bb.
  unfold position_of.
  rewrite (getTime_valid _ _ _ Ha), (getTime_valid _ _ _ Ht1),
    (getTime_valid _ _ _ Ht2), (getTime_valid _ _ _ Hb).
  destruct (Z.eq_dec a b) as [->|Hab].
  - rewrite num_sub_diag_of_Z by now apply max_time_lt. reflexivity.
  - destruct (position_in_range a t1 b Ba B1 Bb ltac:(lia) ltac:(lia)) as (E & _).
    rewrite E. apply position_monotone; try assumption; lia.
Qed.

(** X8: whatever the order of the entries, when the first unique entry is
    before the last one, a unique entry whose time is not before that of the
    last one sits at [100] or beyond. *)
Theorem late_entries_reach_hundred entries first last_ (k : nat) e a b t :
  head (uniqueDates entries) = Some first ->
  last (uniqueDates entries) = Some last_ ->
  uniqueDates entries !! k = Some e ->
  time_value date_parse (BlockEntry.rawDate first) = Some a ->
  time_value date_parse (BlockEntry.rawDate last_) = Some b ->
  time_value date_parse (BlockEntry.rawDate e) = Some t ->
  a < b -> b <= t ->
  exists p, positions date_parse entries !! k = Some p /\
            num_le num_hundred p = true.
Proof.
  intros Hh Hl He Ha Hb Ht Hab Hbt. unfold positions.
  rewrite (positions_of_eq date_parse _ _ _ Hh Hl).
  rewrite list_lookup_fmap, He. simpl. eexists. split; [reflexivity|].
  pose proof (time_value_bound _ _ _ Ha) as Ba.
  pose proof (time_value_bound _ _ _ Ht) as Bt.
  pose proof (time_value_bound _ _ _ Hb) as Bb.
  unfold position_of.
  rewrite (getTime_valid _ _ _ Ha), (getTime_valid _ _ _ Ht),
    (getTime_valid _ _ _ Hb).
  destruct (position_last a b Ba Bb ltac:(lia)) as [E H100].
  rewrite E.
  pose proof (position_monotone a b t b Ba Bb Bt Bb ltac:(lia) Hbt Hab) as Hm.
  cbv zeta in Hm, H100. rewrite H100 in Hm. exact Hm.
Qed.

(** * Runs of the navigator *)

Lemma dispatch_spec entries h ev :
  dispatch date_parse entries h ev =
  match ev with
  | PointerEnter i =>
      (if uniqueDates entries !! i then Some i else h, [])
  | PointerLeave i =>
      (if uniqueDates entries !! i then None else h, [])
  | Activate i =>
      (h, match uniqueDates entries !! i with
          | Some entry => [BlockEntry.id entry]
          | None => []
          end)
  end.
Proof.
  unfold dispatch, render_ticks.
  destruct ev as [i|i|i]; rewrite list_lookup_imap;
    destruct (uniqueDates entries !! i); reflexivity.
Qed.

(** X9: over any sequence of events from the initial state, the hovered
    index is none or the index of a rendered tick, and the [onScrollTo]
    calls are exactly the ids of the activated ticks, in order: hovering
    calls nothing, and nothing but an entry's id is ever passed. *)
Theorem run_invariant entries events :
  hover_in_range entries (run date_parse entries initial_hoveredIndex events).1 /\
  (run date_parse entries initial_hoveredIndex events).2
    = omap (activation_call entries) events /\
  Forall (fun c => c ∈ BlockEntry.id <$> entries)
         (run date_parse entries initial_hoveredIndex events).2.
Proof.
  assert (Hgen : forall evs h, hover_in_range entries h ->
    hover_in_range entries (run date_parse entries h evs).1 /\
    (run date_parse entries h evs).2 = omap (activation_call entries) evs).
  { induction evs as [|ev rest IH]; intros h Hh; [split; [exact Hh | reflexivity]|].
    simpl. rewrite dispatch_spec.
    destruct ev as [i|i|i]; simpl.
    - destruct (uniqueDates entries !! i) eqn:E.
      + destruct (IH (Some i)) as [H1 H2].
        { simpl. now apply lookup_lt_Some in E. }
        destruct (run date_parse entries (Some i) rest). simpl in *. auto.
      + destruct (IH h Hh) as [H1 H2].
        destruct (run date_parse entries h rest). simpl in *. auto.
    - destruct (uniqueDates entries !! i) eqn:E.
      + destruct (IH None I) as [H1 H2].
        destruct (run date_parse entries None rest). simpl in *. auto.
      + destruct (IH h Hh) as [H1 H2].
        destruct (run date_parse entries h rest). simpl in *. auto.
    - destruct (IH h Hh) as [H1 H2].
      destruct (run date_parse entries h rest) as [h2 c2]. simpl in *.
      split; [assumption|]. rewrite H2.
      destruct (uniqueDates entries !! i); reflexivity. }
  destruct (Hgen events initial_hoveredIndex I) as [H1 H2].
  split; [exact H1|]. split; [exact H2|]. rewrite H2.
  apply Forall_forall. intros c Hc.
  apply list_elem_of_omap in Hc as (ev & _ & Hev).
  destruct ev as [i|i|i]; simpl in Hev; try discriminate.
  destruct (uniqueDates entries !! i) as [entry|] eqn:E; [|discriminate].
  simpl in Hev. injection Hev as <-.
  apply list_elem_of_fmap. exists entry. split; [reflexivity|].
  apply list_elem_of_lookup_2 in E.
  eapply elem_of_sublist; [exact E | apply (filter_unseen_sublist entries ∅)].
Qed.

End MoreTimeline.

(** * More about the scroll handler *)

Lemma getElementById_Some document i el :
  getElementById document i = Some el ->
  element_id el = i /\
  exists before after,
    document = before ++ el :: after /\
    Forall (fun x => element_id x <> i) before.
Proof.
  unfold getElementById. induction document as [|x rest IH]; [discriminate|].
  simpl. destruct (String.eqb_spec (element_id x) i) as [E|E].
  - intros [= <-]. split; [assumption|]. exists [], rest. split; [reflexivity|constructor].
  - intros H. destruct (IH H) as (Hid & before & after & -> & Hb).
    split; [assumption|]. exists (x :: before), after.
    split; [reflexivity | constructor; assumption].
Qed.

(** X10: [handleScrollTo] never throws; it scrolls at most once, smoothly
    to the block start, and then to the first element of the document that
    carries the id; while the scroll area is not mounted it scrolls
    nothing. *)
Theorem handleScrollTo_safe document scrollRef_current i :
  exists scrolls,
    handleScrollTo document scrollRef_current i = Returned scrolls /\
    (length scrolls <= 1)%nat /\
    Forall (fun c =>
              element_id (scroll_target c) = i /\
              scroll_behavior c = Smooth /\ scroll_block c = BlockStart /\
              exists before after,
                document = before ++ scroll_target c :: after /\
                Forall (fun x => element_id x <> i) before)
           scrolls /\
    (scrollRef_current = None -> scrolls = []).
Proof.
  unfold handleScrollTo.
  destruct (getElementById document i) as [el|] eqn:E;
    destruct scrollRef_current as [area|]; simpl;
    try (exists []; split; [reflexivity|]; split; [simpl; lia|];
         split; [constructor | reflexivity]).
  eexists. split; [reflexivity|]. split; [simpl; lia|].
  split; [|discriminate].
  constructor; [|constructor]. simpl.
  destruct (getElementById_Some _ _ _ E) as (Hid & Hpos).
  auto.
Qed.


(** * [pad] and [formatDate] *)

Lemma length_string_of_list_ascii l :
  String.length (string_of_list_ascii l) = length l.
Proof. induction l as [|a l IH]; [reflexivity|]. simpl. now f_equal. Qed.

Lemma length_string_app s1 s2 :
  String.length (s1 +:+ s2) = (String.length s1 + String.length s2)%nat.
Proof. induction s1 as [|a s1 IH]; [reflexivity|]. simpl. now f_equal. Qed.

Lemma list_ascii_of_string_app s1 s2 :
  list_ascii_of_string (s1 +:+ s2)
  = list_ascii_of_string s1 ++ list_ascii_of_string s2.
Proof. induction s1 as [|a s1 IH]; [reflexivity|]. simpl. now f_equal. Qed.

Lemma length_list_ascii_of_string s :
  length (list_ascii_of_string s) = String.length s.
Proof. induction s as [|a s IH]; [reflexivity|]. simpl. now f_equal. Qed.

Lemma length_mjoin_replicate {A} n (l : list A) :
  length (mjoin (replicate n l)) = (n * length l)%nat.
Proof. induction n; simpl; [reflexivity|]. rewrite length_app. lia. Qed.

Lemma padStart_filled targetLength padString s :
  padString <> EmptyString ->
  String.length (padStart targetLength padString s)
    = Nat.max targetLength (String.length s) /\
  exists filler, padStart targetLength padString s = filler +:+ s.
Proof.
  intros Hp. unfold padStart.
  destruct (Nat.leb_spec targetLength (String.length s)) as [Hle|Hlt].
  - split; [lia|]. exists EmptyString. reflexivity.
  - assert (Hlen : (0 < String.length padString)%nat)
      by (destruct padString; [congruence | simpl; lia]).
    destruct (Nat.eqb_spec (String.length padString) 0) as [E|_]; [lia|].
    split; [|eexists; reflexivity].
    rewrite length_string_app, length_string_of_list_ascii, length_take,
      length_mjoin_replicate, length_list_ascii_of_string.
    nia.
Qed.

Lemma string_of_Z_inv z s :
  js_String (Some z) = s -> read_decimal s = Some z.
Proof.
  intros <-. unfold read_decimal, js_String.
  rewrite NilZero.isi.
  - simpl. now rewrite DecimalZ.of_to.
  - destruct z; simpl; try discriminate.
    intros [= H]. now apply DecimalPos.Unsigned.to_uint_nonnil in H.
  - destruct z; simpl; try discriminate.
    intros [= H]. now apply DecimalPos.Unsigned.to_uint_nonnil in H.
Qed.

Lemma forall_below (f : Z -> bool) (k : nat) :
  forallb f (map Z.of_nat (seq 0 k)) = true ->
  forall n, 0 <= n < Z.of_nat k -> f n = true.
Proof.
  intros H n Hn. rewrite forallb_forall in H. apply H.
  apply in_map_iff. exists (Z.to_nat n). split; [lia|].
  apply in_seq. lia.
Qed.

Lemma js_String_one_char z :
  String.length (js_String (Some z)) = 1%nat -> 0 <= z <= 9.
Proof.
  intros Hlen. pose proof (string_of_Z_inv z _ eq_refl) as Hr.
  destruct (js_String (Some z)) as [|c [|c' s]]; try discriminate.
  clear Hlen.
  destruct c as [[] [] [] [] [] [] [] []]; vm_compute in Hr;
    try discriminate; injection Hr as <-; lia.
Qed.

Lemma js_String_nonempty z : js_String (Some z) <> EmptyString.
Proof.
  intros E. pose proof (string_of_Z_inv z _ eq_refl) as Hr.
  rewrite E in Hr. discriminate.
Qed.

Lemma pad_cases z :
  (0 <= z <= 9 -> pad (Some z) = "0" +:+ js_String (Some z)) /\
  (~ 0 <= z <= 9 -> pad (Some z) = js_String (Some z)) /\
  (2 <= String.length (pad (Some z)))%nat.
Proof.
  assert (Hsmall : 0 <= z <= 9 -> pad (Some z) = "0" +:+ js_String (Some z)).
  { intros Hz.
    apply String.eqb_eq.
    apply (forall_below
             (fun n => String.eqb (pad (Some n)) ("0" +:+ js_String (Some n))) 10);
      [vm_compute; reflexivity | lia]. }
  assert (Hbig : ~ 0 <= z <= 9 -> pad (Some z) = js_String (Some z)).
  { intros Hz. unfold pad, padStart.
    destruct (Nat.leb_spec 2 (String.length (js_String (Some z)))) as [|Hlt];
      [reflexivity|].
    exfalso. apply Hz. apply js_String_one_char.
    pose proof (js_String_nonempty z).
    destruct (js_String (Some z)) as [|c [|c' s]]; simpl in *; try congruence; lia. }
  split; [exact Hsmall|]. split; [exact Hbig|].
  destruct (padStart_filled 2 "0" (js_String (Some z)) ltac:(discriminate)) as [E _].
  unfold pad. rewrite E. lia.
Qed.

Lemma read_decimal_pad z : read_decimal (pad (Some z)) = Some z.
Proof.
  destruct (pad_cases z) as (Hsmall & Hbig & _).
  destruct (Z_le_dec 0 z) as [H0|H0]; [destruct (Z_le_dec z 9) as [H9|H9]|].
  - pose proof (forall_below
                  (fun n => match read_decimal (pad (Some n)) with
                            | Some r => r =? n | None => false end) 10
                  ltac:(vm_compute; reflexivity) z ltac:(lia)) as H.
    simpl in H. destruct (read_decimal (pad (Some z))) as [r|]; [|discriminate].
    apply Z.eqb_eq in H. now subst r.
  - rewrite Hbig by lia. now apply string_of_Z_inv.
  - rewrite Hbig by lia. now apply string_of_Z_inv.
Qed.

Lemma pad_two_chars n :
  0 <= n <= 99 -> String.length (pad (Some n)) = 2%nat.
Proof.
  intros Hn.
  pose proof (forall_below
                (fun n => (String.length (pad (Some n)) =? 2)%nat) 100
                ltac:(vm_compute; reflexivity) n ltac:(lia)) as H.
  now apply Nat.eqb_eq in H.
Qed.

Lemma list_ascii_of_string_inj s1 s2 :
  list_ascii_of_string s1 = list_ascii_of_string s2 -> s1 = s2.
Proof.
  intros H. rewrite <- (string_of_list_ascii_of_string s1),
    <- (string_of_list_ascii_of_string s2). now rewrite H.
Qed.

Lemma dotted_inj y1 m1 d1 y2 m2 d2 :
  String.length m1 = 2%nat -> String.length d1 = 2%nat ->
  String.length m2 = 2%nat -> String.length d2 = 2%nat ->
  y1 +:+ "." +:+ m1 +:+ "." +:+ d1 = y2 +:+ "." +:+ m2 +:+ "." +:+ d2 ->
  y1 = y2 /\ m1 = m2 /\ d1 = d2.
Proof.
  intros Lm1 Ld1 Lm2 Ld2 E.
  apply (f_equal list_ascii_of_string) in E.
  rewrite !list_ascii_of_string_app in E. simpl in E.
  apply app_inj_2 in E as [Ey E].
  - injection E as E. apply app_inj_1 in E as [Em E].
    + injection E as Ed.
      repeat split; now apply list_ascii_of_string_inj.
    + rewrite !length_list_ascii_of_string. congruence.
  - simpl. rewrite !length_app. simpl.
    rewrite !length_list_ascii_of_string. congruence.
Qed.



(** X14: on calendar dates [formatDate] is injective: two dates get the
    same display date only if year, month and day agree. *)
Theorem formatDate_injective d1 d2 :
  calendar_date d1 -> calendar_date d2 ->
  formatDate d1 = formatDate d2 -> d1 = d2.
Proof.
  destruct d1 as [|y1 m1 a1], d2 as [|y2 m2 a2]; simpl; try tauto.
  intros [Hm1 Ha1] [Hm2 Ha2] E. unfold formatDate in E. simpl in E.
  apply dotted_inj in E as (Ey & Em & Ea);
    try (apply pad_two_chars; lia).
  apply (f_equal read_decimal) in Em, Ea.
  rewrite !read_decimal_pad in Em, Ea.
  assert (R1 : read_decimal (js_String (Some y2)) = Some y1)
    by exact (string_of_Z_inv y1 _ Ey).
  pose proof (string_of_Z_inv y2 _ eq_refl) as R2.
  assert (y1 = y2) as -> by congruence. injection Em as Em. injection Ea as ->.
  f_equal. lia.
Qed.

(** X15: for a calendar date in a four-digit year the display date has the
    fixed width of [YYYY.MM.DD]: ten characters, with the dots in fifth and
    eighth place. *)
Theorem formatDate_fixed_width y m d :
  1000 <= y <= 9999 -> calendar_date (LocalDate y m d) ->
  String.length (formatDate (LocalDate y m d)) = 10%nat /\
  String.get 4 (formatDate (LocalDate y m d)) = Some "."%char /\
  String.get 7 (formatDate (LocalDate y m d)) = Some "."%char.
Proof.
  intros Hy [Hm Hd].
  change (formatDate (LocalDate y m d))
    with (js_String (Some y) +:+ "." +:+ pad (Some (m + 1)) +:+ "." +:+ pad (Some d)).
  assert (Ly : String.length (js_String (Some y)) = 4%nat).
  { pose proof (forall_below
                  (fun n => (String.length (js_String (Some n)) =? 4)%nat
                            || (n <? 1000)) (Z.to_nat 10000)
                  ltac:(vm_compute; reflexivity) y ltac:(lia)) as H.
    simpl in H. apply orb_true_iff in H as [H|H];
      [now apply Nat.eqb_eq in H | apply Z.ltb_lt in H; lia]. }
  pose proof (pad_two_chars (m + 1) ltac:(lia)) as Lm.
  pose proof (pad_two_chars d ltac:(lia)) as Ld.
  destruct (js_String (Some y)) as [|c1 [|c2 [|c3 [|c4 [|c5 s]]]]]; try discriminate.
  destruct (pad (Some (m + 1))) as [|p1 [|p2 [|p3 s']]]; try discriminate.
  destruct (pad (Some d)) as [|q1 [|q2 [|q3 s'']]]; try discriminate.
  repeat split; reflexivity.
Qed.

(** * Instances of the further properties *)

Lemma uniqueDates_idempotent_witness : uniqueDates same_instant = same_instant.
Proof.
  apply (proj2 (uniqueDates_idempotent same_instant)).
  apply NoDup_ListNoDup. repeat constructor; simpl; intuition discriminate.
Defined.

Lemma tick_keys_unique_witness :
  NoDup (tick_key <$> render_ticks IsoDate.parse journey_2024 None).
Proof.
  apply tick_keys_unique.
  apply NoDup_ListNoDup. repeat constructor; simpl; intuition discriminate.
Defined.

Lemma invalid_endpoint_makes_NaN_witness :
  Forall (fun p => p = S754_nan) (positions IsoDate.parse broken_journey).
Proof.
  apply (invalid_endpoint_makes_NaN IsoDate.parse broken_journey
           (example_entry "x1" "2024.01.01" "soon")
           (example_entry "x2" "2024.07.01" "2024-07-01") eq_refl eq_refl).
  left. reflexivity.
Defined.

Lemma positions_nondecreasing_witness :
  StronglySorted num_leb_rel (positions IsoDate.parse journey_2024).
Proof. apply positions_nondecreasing. reflexivity. Defined.

Lemma late_entries_reach_hundred_witness :
  exists p, positions IsoDate.parse unsorted_journey !! 1%nat = Some p /\
            num_le num_hundred p = true.
Proof.
  apply (late_entries_reach_hundred IsoDate.parse unsorted_journey
           (example_entry "u1" "2024.01.01" "2024-01-01")
           (example_entry "u3" "2025.01.01" "2025-01-01") 1
           (example_entry "u2" "2025.06.01" "2025-06-01")
           1704067200000 1735689600000 1748736000000);
    try reflexivity; lia.
Defined.




Lemma formatDate_injective_witness :
  LocalDate 2024 0 5 = LocalDate 2024 0 5.
Proof.
  apply formatDate_injective; try reflexivity; simpl; lia.
Defined.

Lemma formatDate_fixed_width_witness :
  String.length (formatDate (LocalDate 2024 6 1)) = 10%nat /\
  String.get 4 (formatDate (LocalDate 2024 6 1)) = Some "."%char /\
  String.get 7 (formatDate (LocalDate 2024 6 1)) = Some "."%char.
Proof. apply formatDate_fixed_width; simpl; lia. Defined.
